(** * cli_pong: the physics/state core of [src/state.rs]

    Shallow embedding of [Position2D], [DiscretePosition2D], [Velocity2D],
    [Player], [Ball] and [GameState] with their methods.

    - [f64] is IEEE-754 binary64, as the Standard Library's [spec_float]
      (53-bit precision, [emax = 1024]) with its correctly rounded
      operations: the exact values the Rust program computes (NaN payloads
      aside).  Comparisons are the IEEE ones ([None] for unordered).
    - [usize] is [Z] in [0, 2^64 - 1]; an arithmetic overflow panics in the
      (default, debug) build, which is modelled by [None].
    - a panic anywhere in a method makes the method return [None].
    - the thread-local random number generator of [rand] is a state of an
      abstract type [Rng], threaded through [random::<bool>()] and
      [gen_range]. *)

From Stdlib Require Import ZArith Bool List Ascii String Lia.
From Stdlib Require Import Floats.SpecFloat.
Import ListNotations.
Open Scope Z_scope.

(** ** Binary64 *)

Module F64.

Definition prec : Z := 53.
Definition emax : Z := 1024.

Definition f64 := spec_float.

Definition add (x y : f64) : f64 := SFadd prec emax x y.
Definition sub (x y : f64) : f64 := SFsub prec emax x y.
Definition mul (x y : f64) : f64 := SFmul prec emax x y.
Definition div (x y : f64) : f64 := SFdiv prec emax x y.
Definition neg (x : f64) : f64 := SFopp x.
Definition abs (x : f64) : f64 := SFabs x.

(** [x <= y], [x < y] of Rust on [f64]: false when unordered. *)
Definition le (x y : f64) : bool := SFleb x y.
Definition lt (x y : f64) : bool := SFltb x y.

Definition is_nan (x : f64) : bool :=
  match x with S754_nan => true | _ => false end.

(** [n as f64] for an integer [n] ([usize], [u64], [u32]): round to nearest,
    ties to even. *)
Definition of_Z (n : Z) : f64 := binary_normalize prec emax n 0 false.

(** A representation produced by the IEEE operations: canonical mantissa and
    exponent in range.  Every [f64] value of the program is one. *)
Definition valid (x : f64) : bool := valid_binary prec emax x.

(** Literals. *)
Definition zero : f64 := S754_zero false.
Definition lit (n : Z) : f64 := of_Z n.
(** A decimal literal [m / 10^k] is the correctly rounded quotient. *)
Definition lit_dec (m d : Z) : f64 := div (of_Z m) (of_Z d).

(** [f64::min] and [f64::max]: a NaN argument is ignored. *)
Definition min (x y : f64) : f64 :=
  if is_nan x then y else if is_nan y then x else if lt y x then y else x.
Definition max (x y : f64) : f64 :=
  if is_nan x then y else if is_nan y then x else if lt x y then y else x.

End F64.

Import F64.

(** ** [usize] *)

Definition usize_max : Z := 2 ^ 64 - 1.

(** [x.round() as usize]: [round] rounds half-way cases away from zero,
    [as usize] saturates ([NaN] and negative values give [0], values above
    [usize::MAX] give [usize::MAX]). *)
Definition round_as_usize (x : f64) : Z :=
  match x with
  | S754_finite false m e =>
      Z.min usize_max
        (if 0 <=? e then Zpos m * 2 ^ e
         else (Zpos m + 2 ^ (- e - 1)) / 2 ^ (- e))
  | S754_infinity false => usize_max
  | _ => 0
  end.

(** [a - b] and [a + b] on [usize] in a debug build: [None] is the overflow
    panic. *)
Definition usize_sub (a b : Z) : option Z :=
  if a <? b then None else Some (a - b).
Definition usize_add (a b : Z) : option Z :=
  if usize_max <? a + b then None else Some (a + b).

(** ** [std::time::Duration] *)

Record Duration := mkDuration { secs : Z; nanos : Z }.

Definition NANOS_PER_SEC : Z := 1000000000.

(** [(self.secs as f64) + (self.nanos as f64) / (NANOS_PER_SEC as f64)] *)
Definition as_secs_f64 (d : Duration) : f64 :=
  add (of_Z (secs d)) (div (of_Z (nanos d)) (of_Z NANOS_PER_SEC)).

Definition from_millis (ms : Z) : Duration :=
  mkDuration (ms / 1000) ((ms mod 1000) * 1000000).

(** ** [crossterm::event::KeyCode] and the pressed-key map *)

Inductive KeyCode :=
| Backspace | Enter | Left | Right | Up | Down | Tab | Esc
| Char (c : ascii)
| F (n : nat).

Definition KeyCode_eqb (a b : KeyCode) : bool :=
  match a, b with
  | Backspace, Backspace | Enter, Enter | Left, Left | Right, Right
  | Up, Up | Down, Down | Tab, Tab | Esc, Esc => true
  | Char c, Char d => Ascii.eqb c d
  | F n, F m => Nat.eqb n m
  | _, _ => false
  end.

(** The [HashMap<KeyCode, KeyEvent>] of pressed keys: only [contains_key] is
    used by the core, so the map is its list of keys. *)
Definition PressedKeys := list KeyCode.

Definition contains_key (keys : PressedKeys) (k : KeyCode) : bool :=
  existsb (KeyCode_eqb k) keys.

(** ** Data model *)

Record Position2D := Position2D_new { x : f64; y : f64 }.
Record DiscretePosition2D := DiscretePosition2D_new { dx : Z; dy : Z }.
Record Velocity2D := Velocity2D_new { vx : f64; vy : f64 }.

Definition to_discrete (p : Position2D) : DiscretePosition2D :=
  DiscretePosition2D_new (round_as_usize (x p)) (round_as_usize (y p)).

Definition to_continuous (d : DiscretePosition2D) : Position2D :=
  Position2D_new (of_Z (dx d)) (of_Z (dy d)).

Record Player := Player_mk {
  extend_up : Z;
  extend_down : Z;
  key_up : KeyCode;
  key_down : KeyCode;
  position : Position2D;
  velocity : Velocity2D
}.

Record Ball := Ball_mk { bposition : Position2D; bvelocity : Velocity2D }.

(** Defines how much the velocity of the ball should increase with each frame. *)
Definition VELOCITY_INCREASE : f64 := lit_dec 1003 1000.

(** ** [Player] *)

Module Player.

Definition new (extend_up extend_down : Z) (key_up key_down : KeyCode)
    (position : Position2D) : Player :=
  Player_mk extend_up extend_down key_up key_down position
    (Velocity2D_new zero (lit 12)).

Definition with_position (p : Player) (pos : Position2D) : Player :=
  Player_mk (extend_up p) (extend_down p) (key_up p) (key_down p) pos (velocity p).

Definition update_position (max_height : f64) (pressed_keys : PressedKeys)
    (dt : Duration) (self : Player) : Player :=
  let t := as_secs_f64 dt in
  let v := velocity self in
  let p0 := position self in
  let p1 :=
    if contains_key pressed_keys (key_up self)
    then Position2D_new (add (x p0) (mul (vx v) t)) (add (y p0) (mul (vy v) t))
    else p0 in
  let p2 :=
    if contains_key pressed_keys (key_down self)
    then Position2D_new (sub (x p1) (mul (vx v) t)) (sub (y p1) (mul (vy v) t))
    else p1 in
  let y' := max (min (y p2) (sub max_height (of_Z (extend_up self))))
                (add zero (of_Z (extend_down self))) in
  with_position self (Position2D_new (x p2) y').

(** [own.y - extend_down <= p.y && p.y <= own.y + extend_up && own.x == p.x]
    on [usize], evaluated left to right with short-circuit. *)
Definition collides_with (self : Player) (pos : Position2D) : option bool :=
  let d := to_discrete pos in
  let own := to_discrete (position self) in
  match usize_sub (dy own) (extend_down self) with
  | None => None
  | Some lo =>
      if lo <=? dy d then
        match usize_add (dy own) (extend_up self) with
        | None => None
        | Some hi => Some ((dy d <=? hi) && (dx own =? dx d))
        end
      else Some false
  end.

End Player.

(** ** [Ball] *)

Module Ball.

Definition with_velocity (b : Ball) (v : Velocity2D) : Ball :=
  Ball_mk (bposition b) v.

Definition calc_next_position (dt : Duration) (self : Ball) : Position2D :=
  let t := as_secs_f64 dt in
  Position2D_new (add (x (bposition self)) (mul (vx (bvelocity self)) t))
                 (add (y (bposition self)) (mul (vy (bvelocity self)) t)).

Definition update_if_collision_with_wall (max_height : f64) (dt : Duration)
    (self : Ball) : Ball :=
  let next_position := calc_next_position dt self in
  if le (y next_position) zero || le max_height (y next_position)
  then with_velocity self
         (Velocity2D_new (vx (bvelocity self)) (neg (vy (bvelocity self))))
  else self.

Definition calculate_collision_point_with_player (player : Player) (self : Ball)
    : Position2D :=
  let p := bposition self in
  let v := bvelocity self in
  let collision_r := div (sub (x (position player)) (x p)) (vx v) in
  Position2D_new (add (x p) (mul (vx v) collision_r))
                 (add (y p) (mul (vy v) collision_r)).

Definition invert_vx (self : Ball) : Ball :=
  with_velocity self
    (Velocity2D_new (neg (vx (bvelocity self))) (vy (bvelocity self))).

(** [possible_collision_point.x >= next_position.x && player1.collides_with(..)] *)
Definition update_if_collision_with_player1 (player1 : Player) (dt : Duration)
    (self : Ball) : option Ball :=
  let possible_collision_point := calculate_collision_point_with_player player1 self in
  let next_position := calc_next_position dt self in
  if le (x next_position) (x possible_collision_point) then
    match Player.collides_with player1 possible_collision_point with
    | None => None
    | Some true => Some (invert_vx self)
    | Some false => Some self
    end
  else Some self.

(** [possible_collision_point.x <= next_position.x && player2.collides_with(..)] *)
Definition update_if_collision_with_player2 (player2 : Player) (dt : Duration)
    (self : Ball) : option Ball :=
  let possible_collision_point := calculate_collision_point_with_player player2 self in
  let next_position := calc_next_position dt self in
  if le (x possible_collision_point) (x next_position) then
    match Player.collides_with player2 possible_collision_point with
    | None => None
    | Some true => Some (invert_vx self)
    | Some false => Some self
    end
  else Some self.

(** Position integration followed by the escalation of both components. *)
Definition integrate (dt : Duration) (self : Ball) : Ball :=
  Ball_mk (calc_next_position dt self)
    (Velocity2D_new (mul (vx (bvelocity self)) VELOCITY_INCREASE)
                    (mul (vy (bvelocity self)) VELOCITY_INCREASE)).

Definition update_position (max_height : f64) (player1 player2 : Player)
    (dt : Duration) (self : Ball) : option Ball :=
  let self := update_if_collision_with_wall max_height dt self in
  let checked :=
    if le (vx (bvelocity self)) zero
    then update_if_collision_with_player1 player1 dt self
    else update_if_collision_with_player2 player2 dt self in
  match checked with
  | None => None
  | Some self => Some (integrate dt self)
  end.

End Ball.

(** ** [GameState] *)

Record GameState := GameState_mk {
  width : Z;
  height : Z;
  player1_score : Z;
  player2_score : Z;
  player1 : Player;
  player2 : Player;
  ball : Ball
}.

Module Game.

Section WithRng.

(** The thread-local generator: [random::<bool>()] and
    [thread_rng().gen_range(low..high)] read and advance it. *)
Context {Rng : Type}.
Variable random_bool : Rng -> bool * Rng.
Variable gen_range : f64 -> f64 -> Rng -> f64 * Rng.

Definition random_ball_velocity (r : Rng) : Velocity2D * Rng :=
  let '(b, r) := random_bool r in
  let '(vx, r) :=
    if b then gen_range (lit 10) (lit 20) r
    else gen_range (neg (lit 20)) (neg (lit 10)) r in
  let '(vy, r) := gen_range (neg (lit 6)) (lit 6) r in
  (Velocity2D_new vx vy, r).

Definition ball_new (position : Position2D) (r : Rng) : Ball * Rng :=
  let '(v, r) := random_ball_velocity r in (Ball_mk position v, r).

Definition initial_player1_position (_ : Z) (height : Z) : Position2D :=
  Position2D_new zero (div (of_Z height) (lit 2)).

Definition initial_player2_position (width height : Z) : Position2D :=
  Position2D_new (of_Z width) (div (of_Z height) (lit 2)).

Definition initial_ball_position (width height : Z) : Position2D :=
  Position2D_new (div (of_Z width) (lit 2)) (div (of_Z height) (lit 2)).

Definition new (width height extend_player_height_up extend_player_height_down : Z)
    (r : Rng) : GameState * Rng :=
  let player1 := Player.new extend_player_height_up extend_player_height_down
                   (Char "w"%char) (Char "s"%char)
                   (initial_player1_position width height) in
  let player2 := Player.new extend_player_height_up extend_player_height_down
                   Up Down (initial_player2_position width height) in
  let '(ball, r) := ball_new (initial_ball_position width height) r in
  (GameState_mk width height 0 0 player1 player2 ball, r).

Definition reset_ball_and_players (self : GameState) (r : Rng) : GameState * Rng :=
  let p1 := Player.with_position (player1 self)
              (initial_player1_position (width self) (height self)) in
  let p2 := Player.with_position (player2 self)
              (initial_player2_position (width self) (height self)) in
  let '(v, r) := random_ball_velocity r in
  (GameState_mk (width self) (height self) (player1_score self) (player2_score self)
     p1 p2 (Ball_mk (initial_ball_position (width self) (height self)) v), r).

Definition with_scores (self : GameState) (s1 s2 : Z) : GameState :=
  GameState_mk (width self) (height self) s1 s2
    (player1 self) (player2 self) (ball self).

Definition update_score (self : GameState) (r : Rng) : option (GameState * Rng) :=
  let b := ball self in
  if le (vx (bvelocity b)) zero
     && lt (x (bposition b)) (x (position (player1 self))) then
    match usize_add (player2_score self) 1 with
    | None => None
    | Some s2 => Some (reset_ball_and_players
                         (with_scores self (player1_score self) s2) r)
    end
  else if lt zero (vx (bvelocity b))
          && lt (x (position (player2 self))) (x (bposition b)) then
    match usize_add (player1_score self) 1 with
    | None => None
    | Some s1 => Some (reset_ball_and_players
                         (with_scores self s1 (player2_score self)) r)
    end
  else Some (self, r).

Definition update (pressed_keys : PressedKeys) (dt : Duration)
    (self : GameState) (r : Rng) : option (GameState * Rng) :=
  if contains_key pressed_keys (Char "r"%char) then
    Some (reset_ball_and_players self r)
  else
    let h := of_Z (height self) in
    let p1 := Player.update_position h pressed_keys dt (player1 self) in
    let p2 := Player.update_position h pressed_keys dt (player2 self) in
    match Ball.update_position h p1 p2 dt (ball self) with
    | None => None
    | Some b =>
        update_score (GameState_mk (width self) (height self)
                        (player1_score self) (player2_score self) p1 p2 b) r
    end.

End WithRng.

End Game.

(** ** Contract of [rand::Rng::gen_range] on [f64]

    [gen_range(low..high)] (crate [rand], not part of this repository)
    returns a value in [[low, high)] for a non-empty range: its sampling
    loop only returns a candidate that is [< high], and candidates are
    [low + u * (high - low)] with [u] in [[0, 1)]. *)
Definition gen_range_contract {Rng : Type} (gen_range : f64 -> f64 -> Rng -> f64 * Rng)
    : Prop :=
  forall low high r, lt low high = true ->
    le low (fst (gen_range low high r)) = true /\ lt (fst (gen_range low high r)) high = true.

(** [Some true]: the collision test ran and reported a hit. *)
Definition hits (o : option bool) : bool :=
  match o with Some true => true | _ => false end.

(** Euclidean length of a velocity, [sqrt(vx^2 + vy^2)] in [f64]. *)
Definition speed (v : Velocity2D) : f64 :=
  SFsqrt prec emax (add (mul (vx v) (vx v)) (mul (vy v) (vy v))).

(** On a non-empty range of genuine [f64] values (canonical encodings),
    [gen_range] returns a genuine [f64] value. *)
Definition gen_range_valid {Rng : Type} (gen_range : f64 -> f64 -> Rng -> f64 * Rng)
    : Prop :=
  forall low high r, valid low = true -> valid high = true -> lt low high = true ->
    valid (fst (gen_range low high r)) = true.

(** [dt.as_secs_f64()] is a positive finite number. *)
Definition positive_duration (dt : Duration) : Prop :=
  lt zero (as_secs_f64 dt) = true /\ lt (as_secs_f64 dt) (S754_infinity false) = true.

(** The game states [main] can reach: [GameState::new] on a field at most
    [2^53] cells wide, then [GameState::update] with positive durations,
    each call completing without a panic. *)
Inductive reachable {Rng : Type} (random_bool : Rng -> bool * Rng)
    (gen_range : f64 -> f64 -> Rng -> f64 * Rng) : GameState * Rng -> Prop :=
| reachable_new : forall w h up down r, 0 <= w <= 2 ^ 53 ->
    reachable random_bool gen_range (Game.new random_bool gen_range w h up down r)
| reachable_update : forall keys dt s r s' r',
    reachable random_bool gen_range (s, r) -> positive_duration dt ->
    Game.update random_bool gen_range keys dt s r = Some (s', r') ->
    reachable random_bool gen_range (s', r').

(** What the horizontal layout of a game state keeps: paddle1 on [x = 0],
    paddle2 on [x = width], neither paddle moving horizontally, and the
    ball's [x] a genuine number in [[0, width]] with a genuine, non-NaN
    [vx]. *)
Definition field_inv (s : GameState) : Prop :=
  0 <= width s <= 2 ^ 53 /\
  x (position (player1 s)) = zero /\ x (position (player2 s)) = of_Z (width s) /\
  vx (velocity (player1 s)) = zero /\ vx (velocity (player2 s)) = zero /\
  valid (x (bposition (ball s))) = true /\
  valid (vx (bvelocity (ball s))) = true /\ is_nan (vx (bvelocity (ball s))) = false /\
  le zero (x (bposition (ball s))) = true /\ le (x (bposition (ball s))) (of_Z (width s)) = true.

(** The IEEE order on non-NaN values is the lexicographic order of these
    keys: sign class, then exponent, then mantissa (mirrored for negative
    values). *)
Definition order_key (f : f64) : Z * Z * Z :=
  match f with
  | S754_infinity true => (0, 0, 0)
  | S754_finite true m e => (1, - e, - Zpos m)
  | S754_zero _ => (2, 0, 0)
  | S754_finite false m e => (3, e, Zpos m)
  | S754_infinity false => (4, 0, 0)
  | S754_nan => (5, 0, 0)
  end.

Definition key_le (a b : Z * Z * Z) : Prop :=
  let '(a1, a2, a3) := a in let '(b1, b2, b3) := b in
  a1 < b1 \/ (a1 = b1 /\ (a2 < b2 \/ (a2 = b2 /\ a3 <= b3))).

Definition key_lt (a b : Z * Z * Z) : Prop :=
  let '(a1, a2, a3) := a in let '(b1, b2, b3) := b in
  a1 < b1 \/ (a1 = b1 /\ (a2 < b2 \/ (a2 = b2 /\ a3 < b3))).

(** ** [GameState::display]

    The commands [display] queues on [stdout], in order.  Writing to the
    terminal is taken to succeed: the model is what a [display] whose
    [queue] and [flush] calls all return [Ok] emits; [None] is a panic. *)

(** [derive(PartialEq)] on [DiscretePosition2D]. *)
Definition DiscretePosition2D_eqb (a b : DiscretePosition2D) : bool :=
  (dx a =? dx b) && (dy a =? dy b).

(** The three characters of the field: ['\u{25CF}'], ['\u{2588}'], [' ']. *)
Inductive Glyph := BallGlyph | BlockGlyph | BlankGlyph.

Inductive Command :=
| ClearAll                      (* terminal::Clear(ClearType::All) *)
| HideCursor                    (* cursor::Hide *)
| MoveTo (col row : Z)          (* cursor::MoveTo *)
| PrintStr (s : string)         (* Print of a string *)
| PrintChar (g : Glyph)         (* Print of a char *)
| ShowCursor.                   (* cursor::Show *)

(** ["\r\n"] *)
Definition crlf : string := String "013"%char (String "010"%char EmptyString).

(** [{}] of a [usize]: its decimal digits (a [usize] has at most 20). *)
Fixpoint decimal_aux (fuel : nat) (n : Z) (acc : string) : string :=
  match fuel with
  | O => acc
  | S f =>
      let acc := String (ascii_of_nat (48 + Z.to_nat (n mod 10))) acc in
      if n <? 10 then acc else decimal_aux f (n / 10) acc
  end.

Definition decimal (n : Z) : string := decimal_aux 20 n EmptyString.

Definition header_text (s1 s2 : Z) : string :=
  String.append crlf (String.append "Goals of player1: " (String.append (decimal s1)
    (String.append ",  Goals of player2: " (String.append (decimal s2)
      (String.append crlf crlf))))).

(** The [usize] range [0..=n]. *)
Definition range_incl (n : Z) : list Z := map Z.of_nat (seq 0 (S (Z.to_nat n))).

(** A loop whose body may panic: [None] as soon as one iteration does. *)
Fixpoint omap {A B : Type} (f : A -> option B) (l : list A) : option (list B) :=
  match l with
  | [] => Some []
  | a :: l =>
      match f a with
      | None => None
      | Some b => match omap f l with None => None | Some bs => Some (b :: bs) end
      end
  end.

(** The character of cell [(x, y)]: the ball first, then paddle1, then
    paddle2; a panicking [collides_with] panics [display]. *)
Definition display_cell (s : GameState) (xc yc : Z) : option Glyph :=
  let current_cell := DiscretePosition2D_new xc yc in
  if DiscretePosition2D_eqb (to_discrete (bposition (ball s))) current_cell
  then Some BallGlyph
  else
    match Player.collides_with (player1 s) (to_continuous current_cell) with
    | None => None
    | Some true => Some BlockGlyph
    | Some false =>
        match Player.collides_with (player2 s) (to_continuous current_cell) with
        | None => None
        | Some true => Some BlockGlyph
        | Some false => Some BlankGlyph
        end
    end.

Definition display_row (s : GameState) (yc : Z) : option (list Command) :=
  match omap (fun xc => display_cell s xc yc) (range_incl (width s)) with
  | None => None
  | Some gs => Some (map PrintChar gs ++ [PrintStr crlf])
  end.

(** [for _ in 0..=self.width { Print('\u{2588}') }] and ["\r\n"]. *)
Definition border (w : Z) : list Command :=
  map (fun _ => PrintChar BlockGlyph) (range_incl w) ++ [PrintStr crlf].

Definition display (s : GameState) : option (list Command) :=
  match omap (display_row s) (rev (range_incl (height s))) with
  | None => None
  | Some rows =>
      Some ([ClearAll; HideCursor; MoveTo 0 0;
             PrintStr (header_text (player1_score s) (player2_score s))]
            ++ border (width s) ++ List.concat rows ++ border (width s) ++ [ShowCursor])
  end.

(** ** [main] and [get_pressed_keys]

    A [KeyEvent] as [main] reads it: its code and its modifier bits
    ([KeyModifiers]: SHIFT = 1, CONTROL = 2, ALT = 4, ...). *)
Record KeyEvent := KeyEvent_mk { code : KeyCode; modifiers : Z }.

Definition CONTROL : Z := 2.

(** [KeyModifiers::contains]: all bits of [flag] are set. *)
Definition contains_modifier (m flag : Z) : bool := Z.land m flag =? flag.

Inductive Event := Key (e : KeyEvent) | OtherEvent.

(** What the terminal gives one [poll]/[read] round of [get_pressed_keys]:
    an event, or an [io::Error] from [poll] or [read].  When the list is
    exhausted, [poll] times out ([Ok(false)]). *)
Inductive Input := Ready (e : Event) | IoError.

(** The [HashMap<KeyCode, KeyEvent>]: [insert] replaces the entry of its key. *)
Definition KeyMap := list (KeyCode * KeyEvent).

Definition km_insert (k : KeyCode) (v : KeyEvent) (m : KeyMap) : KeyMap :=
  (k, v) :: filter (fun kv => negb (KeyCode_eqb k (fst kv))) m.

Fixpoint km_get (m : KeyMap) (k : KeyCode) : option KeyEvent :=
  match m with
  | [] => None
  | (k', v) :: m => if KeyCode_eqb k k' then Some v else km_get m k
  end.

Definition km_keys (m : KeyMap) : PressedKeys := map fst m.

Fixpoint get_pressed_keys_from (inp : list Input) (pressed_keys : KeyMap)
    : option KeyMap :=
  match inp with
  | [] => Some pressed_keys
  | Ready (Key e) :: rest => get_pressed_keys_from rest (km_insert (code e) e pressed_keys)
  | Ready OtherEvent :: rest => get_pressed_keys_from rest pressed_keys
  | IoError :: _ => None
  end.

Definition get_pressed_keys (inp : list Input) : option KeyMap :=
  get_pressed_keys_from inp [].

(** What one iteration of [main]'s loop ends in. *)
Inductive Outcome (Rng : Type) :=
| Quit (s : GameState)
| Panic
| Running (s : GameState) (r : Rng) (screen : list Command).

Arguments Quit {Rng}.
Arguments Panic {Rng}.
Arguments Running {Rng}.

Section Main.

Context {Rng : Type}.
Variable random_bool : Rng -> bool * Rng.
Variable gen_range : f64 -> f64 -> Rng -> f64 * Rng.

(** One iteration of [for _ in GameLoop::from_fps(10)]: read the keys
    ([unwrap_or(HashMap::new())]), stop on Ctrl+C, update by
    [Duration::from_millis(100)] and display. *)
Definition main_frame (inp : list Input) (game_state : GameState) (r : Rng)
    : Outcome Rng :=
  let key_events := match get_pressed_keys inp with Some m => m | None => [] end in
  let quit :=
    match km_get key_events (Char "c"%char) with
    | Some key_event => contains_modifier (modifiers key_event) CONTROL
    | None => false
    end in
  if quit then Quit game_state
  else
    match Game.update random_bool gen_range (km_keys key_events) (from_millis 100)
            game_state r with
    | None => Panic
    | Some (s, r) =>
        match display s with
        | None => Panic
        | Some screen => Running s r screen
        end
    end.

Fixpoint main_loop (frames : list (list Input)) (game_state : GameState) (r : Rng)
    (screen : list Command) : Outcome Rng :=
  match frames with
  | [] => Running game_state r screen
  | inp :: rest =>
      match main_frame inp game_state r with
      | Running s r screen => main_loop rest s r screen
      | o => o
      end
  end.

(** [main] from [GameState::new(width, height, up, down)], one input batch
    per frame. *)
Definition main_run (width height up down : Z) (frames : list (list Input)) (r : Rng)
    : Outcome Rng :=
  let '(s, r) := Game.new random_bool gen_range width height up down r in
  main_loop frames s r [].

End Main.

(** ** [utils::GameLoop]

    [Instant]s and [Duration]s in nanoseconds.  [next] reads the clock
    ([Instant::now]) at [now1], and, when it sleeps, at [now2] before
    sleeping, then at [now3]; it returns the frame number and the new loop,
    and [None] on the [u64] overflow of [frame += 1]. *)
Record GameLoop := GameLoop_mk {
  frame : Z;
  current_frame_start : Z;
  duration_per_frame : Z
}.

Definition GameLoop_new (duration_per_frame : Z) (now : Z) : GameLoop :=
  GameLoop_mk 0 now duration_per_frame.

Definition u64_max : Z := 2 ^ 64 - 1.

(** The sleep [next] requests: [Some (end_time - Instant::now())] when
    [now1 <= end_time] ([Instant] subtraction saturates at zero). *)
Definition sleep_request (self : GameLoop) (now1 now2 : Z) : option Z :=
  let end_time := current_frame_start self + duration_per_frame self in
  if now1 <=? end_time then Some (Z.max 0 (end_time - now2)) else None.

Definition GameLoop_next (self : GameLoop) (now3 : Z) : option (Z * GameLoop) :=
  let frame_number := frame self in
  if u64_max <? frame self + 1 then None
  else Some (frame_number, GameLoop_mk (frame self + 1) now3 (duration_per_frame self)).

(** The clock readings of one [next] call that started at time [t]: the
    monotonic clock never goes back, and [thread::sleep(d)] sleeps at
    least [d]. *)
Definition clock_ok (self : GameLoop) (t now1 now2 now3 : Z) : Prop :=
  t <= now1 <= now2 /\
  match sleep_request self now1 now2 with
  | Some d => now2 + d <= now3
  | None => now2 <= now3
  end.

(** [n] calls of [next]; each triple holds one call's clock readings. *)
Fixpoint GameLoop_run (self : GameLoop) (clocks : list (Z * Z * Z))
    : option (list Z * GameLoop) :=
  match clocks with
  | [] => Some ([], self)
  | (_, _, now3) :: rest =>
      match GameLoop_next self now3 with
      | None => None
      | Some (n, gl) =>
          match GameLoop_run gl rest with
          | None => None
          | Some (ns, gl') => Some (n :: ns, gl')
          end
      end
  end.

(** The clock readings of consecutive calls: each call is legal and starts
    after the previous one returned. *)
Fixpoint clocks_ok (self : GameLoop) (t : Z) (clocks : list (Z * Z * Z)) : Prop :=
  match clocks with
  | [] => True
  | (now1, now2, now3) :: rest =>
      clock_ok self t now1 now2 now3 /\
      clocks_ok (GameLoop_mk (frame self + 1) now3 (duration_per_frame self)) now3 rest
  end.

(** ** Observations used by the statements below *)

(** A [Print] of one character, and a [Print] of the ball's character. *)
Definition is_print_char (c : Command) : bool :=
  match c with PrintChar _ => true | _ => false end.

Definition is_ball_glyph (c : Command) : bool :=
  match c with PrintChar BallGlyph => true | _ => false end.

(** Cell [(xc, yc)] lies on paddle [p]'s column segment
    [[own_y - extend_down, own_y + extend_up]]. *)
Definition paddle_cell (p : Player) (xc yc : Z) : bool :=
  let own := to_discrete (position p) in
  (dy own - extend_down p <=? yc) && (yc <=? dy own + extend_up p) && (dx own =? xc).

(** The last key event of code [k] in an input batch. *)
Fixpoint last_key_event (inp : list Input) (k : KeyCode) : option KeyEvent :=
  match inp with
  | [] => None
  | Ready (Key e) :: rest =>
      match last_key_event rest k with
      | Some e' => Some e'
      | None => if KeyCode_eqb k (code e) then Some e else None
      end
  | _ :: rest => last_key_event rest k
  end.

(** ** Concrete inputs

    A generator state [n : nat] whose [random::<bool>()] returns [true] on
    even states and whose [gen_range(low..high)] returns [low], the value
    [rand] produces when its raw 52-bit sample is zero. *)
Definition test_random_bool (n : nat) : bool * nat := (Nat.even n, S n).
Definition test_gen_range (low high : f64) (n : nat) : f64 * nat := (low, S n).

(** [GameState::new(w, h, up, down)] under that generator. *)
Definition test_game (w h up down : Z) : GameState :=
  fst (Game.new test_random_bool test_gen_range w h up down O).

(** The frame duration of [main]: [Duration::from_millis(100)]. *)
Definition tick : Duration := from_millis 100.

(** The default field of [main] with the ball one unit right of paddle 1,
    moving left at 30 cells per second, far below the paddle. *)
Definition fast_ball_state : GameState :=
  let g := test_game 60 18 1 1 in
  GameState_mk 60 18 0 0 (player1 g) (player2 g)
    (Ball_mk (Position2D_new (lit 1) (lit 2)) (Velocity2D_new (neg (lit 30)) zero)).

(** * Proofs *)

(** ** Lemmas on the IEEE comparison *)

Lemma SFcompare_swap : forall a b : f64,
  SFcompare b a = option_map CompOpp (SFcompare a b).
Proof.
  intros [sa|sa| |sa ma ea] [sb|sb| |sb mb eb];
    [ .. | simpl; pose proof (Z.compare_antisym ea eb) as Hz;
           replace (Pos.compare_cont Eq mb ma) with (CompOpp (Pos.compare_cont Eq ma mb))
             by (rewrite Pos.compare_cont_antisym; reflexivity);
           destruct (ea ?= eb), (eb ?= ea); simpl in Hz; try discriminate;
           destruct sa, sb, (Pos.compare_cont Eq ma mb); reflexivity ];
    simpl; try destruct sa; try destruct sb; reflexivity.
Qed.

Lemma le_lt_false : forall a b : f64, le a b = true -> lt b a = false.
Proof.
  unfold le, lt, SFleb, SFltb; intros a b H.
  rewrite SFcompare_swap; destruct (SFcompare a b) as [[]|]; simpl; congruence.
Qed.

Lemma lt_le_false : forall a b : f64, lt a b = true -> le b a = false.
Proof.
  unfold le, lt, SFleb, SFltb; intros a b H.
  rewrite SFcompare_swap; destruct (SFcompare a b) as [[]|]; simpl; congruence.
Qed.

Lemma wall_vx : forall H dt b,
  vx (bvelocity (Ball.update_if_collision_with_wall H dt b)) = vx (bvelocity b).
Proof.
  intros; unfold Ball.update_if_collision_with_wall; destruct (_ || _); reflexivity.
Qed.

Lemma wall_position : forall H dt b,
  bposition (Ball.update_if_collision_with_wall H dt b) = bposition b.
Proof.
  intros; unfold Ball.update_if_collision_with_wall; destruct (_ || _); reflexivity.
Qed.

(** ** C1: exactly one paddle is tested, chosen by the sign of [vx] *)

(** C1.  After the wall check (which leaves [vx] unchanged), if [vx <= 0]
    only paddle1 is tested: the result does not depend on paddle2, and the
    returned [vx] is [-vx] (then escalated) exactly when the intersection
    point [ball + v * ((paddle1.x - ball.x) / vx)] has [x >= next.x] and
    [collides_with] reports a hit there; if [vx > 0] the same holds for
    paddle2 with [x <= next.x], and paddle1 is never consulted. *)
Theorem update_position_tests_one_paddle : forall H p1 p2 dt b,
  let b1 := Ball.update_if_collision_with_wall H dt b in
  let v := vx (bvelocity b) in
  let np := Ball.calc_next_position dt b1 in
  vx (bvelocity b1) = v /\
  (le v zero = true ->
     (forall p2', Ball.update_position H p1 p2' dt b = Ball.update_position H p1 p2 dt b) /\
     (forall b', Ball.update_position H p1 p2 dt b = Some b' ->
        let pc := Ball.calculate_collision_point_with_player p1 b1 in
        vx (bvelocity b') =
        mul (if le (x np) (x pc) && hits (Player.collides_with p1 pc) then neg v else v)
            VELOCITY_INCREASE)) /\
  (le v zero = false ->
     (forall p1', Ball.update_position H p1' p2 dt b = Ball.update_position H p1 p2 dt b) /\
     (forall b', Ball.update_position H p1 p2 dt b = Some b' ->
        let pc := Ball.calculate_collision_point_with_player p2 b1 in
        vx (bvelocity b') =
        mul (if le (x pc) (x np) && hits (Player.collides_with p2 pc) then neg v else v)
            VELOCITY_INCREASE)).
Proof.
  intros H p1 p2 dt b b1 v np.
  assert (Hv : vx (bvelocity b1) = v) by apply wall_vx.
  split; [exact Hv|].
  unfold Ball.update_position; fold b1; rewrite Hv.
  split; intros Hle; rewrite Hle; (split; [reflexivity|]); intros b' Hb';
    [unfold Ball.update_if_collision_with_player1 in Hb'
    |unfold Ball.update_if_collision_with_player2 in Hb'];
    fold np in Hb' |- *;
    match type of Hb' with
    | match (if ?c then _ else _) with _ => _ end = _ => destruct c
    end; simpl;
    try (injection Hb' as <-; simpl; rewrite Hv; reflexivity);
    match type of Hb' with
    | match match ?o with _ => _ end with _ => _ end = _ => destruct o as [[]|]
    end; simpl; try discriminate; injection Hb' as <-; simpl; rewrite Hv; reflexivity.
Qed.

(** ** C2: the wall check flips [vy] before the integration *)

Lemma paddle_check_vy : forall p1 p2 dt b b',
  (if le (vx (bvelocity b)) zero
   then Ball.update_if_collision_with_player1 p1 dt b
   else Ball.update_if_collision_with_player2 p2 dt b) = Some b' ->
  bposition b' = bposition b /\ vy (bvelocity b') = vy (bvelocity b).
Proof.
  intros p1 p2 dt b b' Hb.
  destruct (le _ _);
    [unfold Ball.update_if_collision_with_player1 in Hb
    |unfold Ball.update_if_collision_with_player2 in Hb];
    (destruct (le _ _); [|injection Hb as <-; auto]);
    destruct (Player.collides_with _ _) as [[]|]; try discriminate;
    injection Hb as <-; auto.
Qed.


Lemma le_nan_r : forall a : f64, le a S754_nan = false.
Proof. intros []; reflexivity. Qed.

Lemma abs_neg : forall a : f64, abs (neg a) = abs a.
Proof. intros []; reflexivity. Qed.

(** C2.  With [ny] the [y] of the predicted position [y + vy * dt]
    (pre-bounce velocity, not committed): if [ny <= 0] or [ny >= max_height],
    [vy] becomes [-vy] (same magnitude) and the integration step uses it,
    [y' = y + (-vy) * dt], and the escalated [vy' = (-vy) * 1.003]; if
    [0 < ny < max_height] the wall check leaves [vy] as it is. *)
Theorem wall_check_flips_vy : forall H p1 p2 dt b b',
  Ball.update_position H p1 p2 dt b = Some b' ->
  let ny := y (Ball.calc_next_position dt b) in
  let vy0 := vy (bvelocity b) in
  let t := as_secs_f64 dt in
  ((le ny zero || le H ny) = true ->
     abs (neg vy0) = abs vy0 /\
     y (bposition b') = add (y (bposition b)) (mul (neg vy0) t) /\
     vy (bvelocity b') = mul (neg vy0) VELOCITY_INCREASE) /\
  (lt zero ny && lt ny H = true ->
     y (bposition b') = ny /\
     vy (bvelocity b') = mul vy0 VELOCITY_INCREASE).
Proof.
  intros H p1 p2 dt b b' Hb ny vy0 t.
  unfold Ball.update_position in Hb.
  destruct (if le _ zero then _ else _) as [b2|] eqn:E; [|discriminate].
  injection Hb as <-.
  apply paddle_check_vy in E as [Hp Hy].
  unfold Ball.update_if_collision_with_wall in Hp, Hy; fold ny in Hp, Hy.
  split; intros Hc.
  - rewrite Hc in Hp, Hy; simpl in Hp, Hy.
    split; [apply abs_neg|].
    unfold Ball.integrate, Ball.calc_next_position; simpl; rewrite Hp, Hy; auto.
  - apply andb_prop in Hc as [H0 H1].
    rewrite (lt_le_false _ _ H0), (lt_le_false _ _ H1) in Hp, Hy; simpl in Hp, Hy.
    unfold Ball.integrate, Ball.calc_next_position; simpl; rewrite Hp, Hy; auto.
Qed.

(** ** C8: [vx = 0] never triggers a paddle bounce *)

(** C8.  If [vx] is [+0.0] or [-0.0], the intersection [x] of the paddle
    test is NaN (the division by [vx] gives an infinity or a NaN, times
    [vx] a NaN), so [x >= next.x] is false: [collides_with] is not even
    evaluated, the call cannot panic and [vx] stays the same zero
    ([0 * 1.003 = 0]). *)
Theorem zero_vx_no_paddle_bounce : forall H p1 p2 dt b s,
  vx (bvelocity b) = S754_zero s ->
  let b1 := Ball.update_if_collision_with_wall H dt b in
  x (Ball.calculate_collision_point_with_player p1 b1) = S754_nan /\
  Ball.update_position H p1 p2 dt b = Some (Ball.integrate dt b1) /\
  vx (bvelocity (Ball.integrate dt b1)) = S754_zero s.
Proof.
  intros H p1 p2 dt b s Hz b1.
  assert (Hv : vx (bvelocity b1) = S754_zero s) by (unfold b1; rewrite wall_vx; exact Hz).
  assert (Hx : x (Ball.calculate_collision_point_with_player p1 b1) = S754_nan).
  { unfold Ball.calculate_collision_point_with_player; simpl; rewrite Hv.
    generalize (sub (x (position p1)) (x (bposition b1))) as n; intros n.
    unfold add, mul, div.
    destruct (x (bposition b1)), n, s; reflexivity. }
  split; [exact Hx|].
  split.
  - unfold Ball.update_position; fold b1; rewrite Hv.
    replace (le (S754_zero s) zero) with true by (destruct s; reflexivity).
    unfold Ball.update_if_collision_with_player1; rewrite Hx.
    rewrite le_nan_r; reflexivity.
  - simpl; rewrite Hv; destruct s; reflexivity.
Qed.

(** ** C5: scoring *)

Lemma reset_scores : forall {Rng} rb gr (s : GameState) (r : Rng),
  player1_score (fst (Game.reset_ball_and_players rb gr s r)) = player1_score s /\
  player2_score (fst (Game.reset_ball_and_players rb gr s r)) = player2_score s.
Proof.
  intros; unfold Game.reset_ball_and_players; destruct (Game.random_ball_velocity _ _ _);
    simpl; auto.
Qed.

(** C5.  Without the reset key, once the paddles and the ball have been
    updated ([b] is the updated ball), [update] ends with the score check:
    [vx <= 0] and [ball.x < paddle1.x] adds exactly 1 to player2's score and
    resets; otherwise [vx > 0] and [ball.x > paddle2.x] adds exactly 1 to
    player1's score and resets; otherwise nothing changes.  (A [usize]
    score at [usize::MAX] would overflow, which panics.)  The two cases
    exclude each other, and no call to [update] decreases a score. *)
Theorem update_score_cases : forall {Rng} rb gr,
  (forall keys dt s (r : Rng), contains_key keys (Char "r"%char) = false ->
   let h := of_Z (height s) in
   let p1 := Player.update_position h keys dt (player1 s) in
   let p2 := Player.update_position h keys dt (player2 s) in
   forall b, Ball.update_position h p1 p2 dt (ball s) = Some b ->
   let s1 := GameState_mk (width s) (height s) (player1_score s) (player2_score s) p1 p2 b in
   Game.update rb gr keys dt s r =
     (if le (vx (bvelocity b)) zero && lt (x (bposition b)) (x (position p1)) then
        if player2_score s + 1 <=? usize_max
        then Some (Game.reset_ball_and_players rb gr
                     (Game.with_scores s1 (player1_score s) (player2_score s + 1)) r)
        else None
      else if lt zero (vx (bvelocity b)) && lt (x (position p2)) (x (bposition b)) then
        if player1_score s + 1 <=? usize_max
        then Some (Game.reset_ball_and_players rb gr
                     (Game.with_scores s1 (player1_score s + 1) (player2_score s)) r)
        else None
      else Some (s1, r)) /\
   ~ (le (vx (bvelocity b)) zero = true /\ lt zero (vx (bvelocity b)) = true)) /\
  (forall keys dt s (r : Rng) s' r', Game.update rb gr keys dt s r = Some (s', r') ->
   player1_score s <= player1_score s' /\ player2_score s <= player2_score s').
Proof.
  intros Rng rb gr; split.
  - intros keys dt s r Hk h p1 p2 b Hb s1.
    split.
    + unfold Game.update; rewrite Hk; fold h p1 p2; rewrite Hb.
      unfold Game.update_score, usize_add; simpl.
      destruct (_ && _); [|destruct (_ && _)]; try reflexivity;
        [destruct (usize_max <? player2_score s + 1) eqn:E
        |destruct (usize_max <? player1_score s + 1) eqn:E];
        [rewrite (proj2 (Z.leb_gt _ _)) by (apply Z.ltb_lt; exact E)
        |rewrite (proj2 (Z.leb_le _ _)) by (apply Z.ltb_ge; exact E)
        |rewrite (proj2 (Z.leb_gt _ _)) by (apply Z.ltb_lt; exact E)
        |rewrite (proj2 (Z.leb_le _ _)) by (apply Z.ltb_ge; exact E)]; reflexivity.
    + intros [H1 H2]; rewrite (le_lt_false _ _ H1) in H2; discriminate.
  - intros keys dt s r s' r' Hu.
    unfold Game.update in Hu.
    destruct (contains_key _ _).
    + injection Hu as Hu; pose proof (reset_scores rb gr s r) as [E1 E2];
        rewrite Hu in E1, E2; simpl in *; lia.
    + destruct (Ball.update_position _ _ _ _ _) as [b|]; [|discriminate].
      unfold Game.update_score, usize_add in Hu; simpl in Hu.
      destruct (_ && _); [|destruct (_ && _)];
        [destruct (usize_max <? player2_score s + 1); [discriminate|]
        |destruct (usize_max <? player1_score s + 1); [discriminate|]
        |]; injection Hu as Hu;
        [pose proof (reset_scores rb gr
           (Game.with_scores (GameState_mk (width s) (height s) (player1_score s)
              (player2_score s) (Player.update_position (of_Z (height s)) keys dt (player1 s))
              (Player.update_position (of_Z (height s)) keys dt (player2 s)) b)
              (player1_score s) (player2_score s + 1)) r) as [E1 E2]
        |pose proof (reset_scores rb gr
           (Game.with_scores (GameState_mk (width s) (height s) (player1_score s)
              (player2_score s) (Player.update_position (of_Z (height s)) keys dt (player1 s))
              (Player.update_position (of_Z (height s)) keys dt (player2 s)) b)
              (player1_score s + 1) (player2_score s)) r) as [E1 E2]
        |]; try (rewrite Hu in E1, E2; simpl in *; lia);
        inversion Hu; subst; simpl; lia.
Qed.

(** ** C6: every reset *)

Lemma le_refl_of_lt : forall a b : f64, lt a b = true -> le a a = true.
Proof.
  unfold lt, le, SFltb, SFleb; intros [sa|sa| |sa ma ea] b H; simpl;
    try (destruct sa; reflexivity); try discriminate.
  rewrite Z.compare_refl, Pos.compare_cont_refl; destruct sa; reflexivity.
Qed.

(** C6.  A reset (the one of the reset key, and the one of a score, which is
    the same function) puts paddle1 at [(0, height/2)], paddle2 at
    [(width, height/2)], the ball at [(width/2, height/2)], and, for every
    state of the generator (given [gen_range]'s contract), a velocity with
    [vx] in [[10, 20)] or [[-20, -10)] and [vy] in [[-6, 6)]; it changes
    neither the scores, nor the field, nor the paddles' velocities, reaches
    or keys. *)
Theorem reset_layout_and_velocity : forall {Rng} rb (gr : f64 -> f64 -> Rng -> f64 * Rng),
  gen_range_contract gr ->
  forall s r,
  (forall keys dt, contains_key keys (Char "r"%char) = true ->
     Game.update rb gr keys dt s r = Some (Game.reset_ball_and_players rb gr s r)) /\
  let s' := fst (Game.reset_ball_and_players rb gr s r) in
  let h2 := div (of_Z (height s)) (lit 2) in
  position (player1 s') = Position2D_new zero h2 /\
  position (player2 s') = Position2D_new (of_Z (width s)) h2 /\
  bposition (ball s') = Position2D_new (div (of_Z (width s)) (lit 2)) h2 /\
  (le (lit 10) (vx (bvelocity (ball s'))) && lt (vx (bvelocity (ball s'))) (lit 20)
   || le (neg (lit 20)) (vx (bvelocity (ball s'))) && lt (vx (bvelocity (ball s'))) (neg (lit 10)))
    = true /\
  le (neg (lit 6)) (vy (bvelocity (ball s'))) && lt (vy (bvelocity (ball s'))) (lit 6) = true /\
  player1_score s' = player1_score s /\ player2_score s' = player2_score s /\
  width s' = width s /\ height s' = height s /\
  velocity (player1 s') = velocity (player1 s) /\ velocity (player2 s') = velocity (player2 s) /\
  extend_up (player1 s') = extend_up (player1 s) /\
  extend_down (player1 s') = extend_down (player1 s) /\
  extend_up (player2 s') = extend_up (player2 s) /\
  extend_down (player2 s') = extend_down (player2 s).
Proof.
  intros Rng rb gr Hgr s r.
  split.
  { intros keys dt Hk; unfold Game.update; rewrite Hk; reflexivity. }
  unfold Game.reset_ball_and_players, Game.random_ball_velocity.
  destruct (rb r) as [c r1].
  assert (Hx : forall lo hi r0, lt lo hi = true ->
             le lo (fst (gr lo hi r0)) && lt (fst (gr lo hi r0)) hi = true)
    by (intros lo hi r0 Hlh; destruct (Hgr lo hi r0 Hlh) as [-> ->]; reflexivity).
  destruct c.
  - destruct (gr (lit 10) (lit 20) r1) as [v1 r2] eqn:E1.
    destruct (gr (neg (lit 6)) (lit 6) r2) as [v2 r3] eqn:E2.
    pose proof (Hx (lit 10) (lit 20) r1 eq_refl) as H1; rewrite E1 in H1.
    pose proof (Hx (neg (lit 6)) (lit 6) r2 eq_refl) as H2; rewrite E2 in H2.
    simpl in *; rewrite H1, H2; repeat split.
  - destruct (gr (neg (lit 20)) (neg (lit 10)) r1) as [v1 r2] eqn:E1.
    destruct (gr (neg (lit 6)) (lit 6) r2) as [v2 r3] eqn:E2.
    pose proof (Hx (neg (lit 20)) (neg (lit 10)) r1 eq_refl) as H1; rewrite E1 in H1.
    pose proof (Hx (neg (lit 6)) (lit 6) r2 eq_refl) as H2; rewrite E2 in H2.
    simpl in *; rewrite H1, H2, orb_true_r; repeat split.
Qed.

(** ** Binary64 facts: digits, shifts and the rounding step *)

Module F64Facts.

Lemma digits2_pos_log2 : forall p, Zpos (digits2_pos p) = Z.log2 (Zpos p) + 1.
Proof.
  assert (Hs : forall p, digits2_pos p = Pos.size p)
    by (induction p; simpl; congruence).
  intros [p|p|]; rewrite Hs; simpl; try reflexivity; rewrite Pos2Z.inj_succ; lia.
Qed.

Lemma Zdigits2_pos : forall m, 0 < m -> Zdigits2 m = Z.log2 m + 1.
Proof. intros [|p|p] H; try lia; apply digits2_pos_log2. Qed.

Lemma Zdigits2_bounds : forall m, 0 < m ->
  2 ^ (Zdigits2 m - 1) <= m < 2 ^ Zdigits2 m.
Proof.
  intros m Hm; rewrite Zdigits2_pos by exact Hm.
  replace (Z.log2 m + 1 - 1) with (Z.log2 m) by lia.
  pose proof (Z.log2_spec m Hm) as H; rewrite <- Z.add_1_r in H; exact H.
Qed.

Lemma Zdigits2_unique : forall m k, 0 < m -> 2 ^ (k - 1) <= m < 2 ^ k -> Zdigits2 m = k.
Proof.
  intros m k Hm Hk.
  destruct (Z_lt_le_dec k 1) as [Hk1|Hk1].
  - assert (2 ^ k <= 1).
    { destruct (Z_lt_le_dec k 0); [rewrite Z.pow_neg_r by lia; lia|].
      replace k with 0 by lia; reflexivity. }
    lia.
  - rewrite Zdigits2_pos by exact Hm.
    assert (Hl : Z.log2 m = k - 1).
    { apply Z.log2_unique; [lia|].
      rewrite <- Z.add_1_r, Z.sub_add; exact Hk. }
    lia.
Qed.

Lemma shr_1_m : forall mrs, 0 <= shr_m mrs -> shr_m (shr_1 mrs) = shr_m mrs / 2.
Proof.
  intros [m r s] H; simpl in *; rewrite <- Z.div2_div.
  destruct m as [|[p|p|]|p]; try reflexivity; lia.
Qed.

Lemma iter_shr : forall p mrs, 0 <= shr_m mrs ->
  shr_m (iter_pos shr_1 p mrs) = shr_m mrs / 2 ^ Zpos p.
Proof.
  induction p as [p IH|p IH|]; intros mrs H; cbn [iter_pos].
  - assert (H1 : 0 <= shr_m (shr_1 mrs))
      by (rewrite shr_1_m by exact H; apply Z.div_pos; lia).
    assert (H2 : 0 <= shr_m (iter_pos shr_1 p (shr_1 mrs)))
      by (rewrite IH by exact H1; apply Z.div_pos; lia).
    rewrite IH, IH, shr_1_m by assumption.
    rewrite !Z.div_div by lia.
    f_equal; rewrite <- (Z.pow_1_r 2) at 1; rewrite <- !Z.pow_add_r by lia; f_equal; lia.
  - assert (H2 : 0 <= shr_m (iter_pos shr_1 p mrs))
      by (rewrite IH by exact H; apply Z.div_pos; lia).
    rewrite IH, IH by assumption.
    rewrite Z.div_div by lia.
    f_equal; rewrite <- !Z.pow_add_r by lia; f_equal; lia.
  - rewrite shr_1_m by exact H; reflexivity.
Qed.

Lemma shr_fexp_spec : forall m e l k, 0 <= m ->
  k = Z.max 0 (fexp prec emax (Zdigits2 m + e) - e) ->
  shr_m (fst (shr_fexp prec emax m e l)) = m / 2 ^ k /\
  snd (shr_fexp prec emax m e l) = e + k.
Proof.
  intros m e l k Hm ->.
  unfold shr_fexp, shr.
  assert (Hr : shr_m (shr_record_of_loc m l) = m) by (destruct l as [|[]]; reflexivity).
  destruct (fexp prec emax (Zdigits2 m + e) - e) as [|p|p] eqn:E; simpl.
  - rewrite Hr, Z.div_1_r; lia.
  - rewrite iter_shr, Hr by lia; split; [reflexivity|lia].
  - rewrite Hr, Z.div_1_r; lia.
Qed.

Lemma round_nearest_even_cases : forall m l,
  round_nearest_even m l = m \/ round_nearest_even m l = m + 1.
Proof.
  intros m [|[]]; simpl; auto; destruct (Z.even m); auto.
Qed.

Lemma fexp_eq : forall z, fexp prec emax z = Z.max (z - 53) (-1074).
Proof. reflexivity. Qed.

Lemma emin_eq : emin prec emax = -1074.
Proof. reflexivity. Qed.

Lemma Zdigits2_le : forall m k, 0 < m -> m < 2 ^ k -> 0 <= k -> Zdigits2 m <= k.
Proof.
  intros m k Hm Hk Hk0; pose proof (Zdigits2_bounds m Hm) as [H1 H2].
  assert (Hd : Zdigits2 m - 1 < k)
    by (apply (Z.pow_lt_mono_r_iff 2); lia).
  lia.
Qed.

Lemma Zdigits2_ge : forall m k, 0 < m -> 2 ^ k <= m -> 0 <= k -> k + 1 <= Zdigits2 m.
Proof.
  intros m k Hm Hk Hk0; pose proof (Zdigits2_bounds m Hm) as [H1 H2].
  assert (Hd0 : 0 <= Zdigits2 m) by (rewrite Zdigits2_pos by lia; pose proof (Z.log2_nonneg m); lia).
  assert (Hd : k < Zdigits2 m)
    by (apply (Z.pow_lt_mono_r_iff 2); lia).
  lia.
Qed.

(** The rounding step [binary_round_aux] on a non-negative mantissa whose
    exponent is at most the canonical one: one rounding of [M / 2^(e1-e)]
    (up by at most one), then at most one more halving when the rounding
    carried into the 54th bit. *)
Lemma bra_cases : forall s M e l e1 q,
  0 <= M -> e <= fexp prec emax (Zdigits2 M + e) ->
  e1 = fexp prec emax (Zdigits2 M + e) -> q = M / 2 ^ (e1 - e) ->
  0 <= q < 2 ^ 53 /\ (-1074 < e1 -> 2 ^ 52 <= q) /\ -1074 <= e1 /\
  exists m1, (m1 = q \/ m1 = q + 1) /\
  binary_round_aux prec emax s M e l =
    match m1 with
    | Zpos m => if m1 <? 2 ^ 53
                then (if e1 <=? 971 then S754_finite s m e1 else S754_infinity s)
                else (if e1 + 1 <=? 971 then S754_finite s 4503599627370496 (e1 + 1)
                      else S754_infinity s)
    | _ => S754_zero s
    end.
Proof.
  intros s M e l e1 q HM He He1 Hq.
  rewrite fexp_eq in He, He1.
  assert (Hpk : 0 < 2 ^ (e1 - e)) by (apply Z.pow_pos_nonneg; lia).
  assert (Hq0 : 0 <= q) by (subst q; apply Z.div_pos; lia).
  assert (H53 : q < 2 ^ 53).
  { destruct (Z.eq_dec M 0) as [->|HM0].
    - subst q; rewrite Z.div_0_l by lia; lia.
    - pose proof (Zdigits2_bounds M ltac:(lia)) as [B1 B2].
      subst q; apply Z.div_lt_upper_bound; [lia|].
      rewrite <- Z.pow_add_r by lia.
      eapply Z.lt_le_trans; [exact B2|].
      apply Z.pow_le_mono_r; lia. }
  assert (H52 : -1074 < e1 -> 2 ^ 52 <= q).
  { intros Hlt.
    destruct (Z.eq_dec M 0) as [->|HM0]; [change (Zdigits2 0) with 0 in He, He1; lia|].
    pose proof (Zdigits2_bounds M ltac:(lia)) as [B1 B2].
    subst q; apply Z.div_le_lower_bound; [lia|].
    rewrite <- Z.pow_add_r by lia.
    eapply Z.le_trans; [|exact B1].
    apply Z.pow_le_mono_r; lia. }
  split; [lia|]; split; [exact H52|]; split; [lia|].
  unfold binary_round_aux.
  pose proof (shr_fexp_spec M e l (e1 - e) HM ltac:(rewrite fexp_eq; lia)) as [A1 C1].
  destruct (shr_fexp prec emax M e l) as [mrs1 e1'] eqn:E1; simpl in A1, C1.
  rewrite <- Hq in A1.
  assert (He1' : e1' = e1) by lia; rewrite He1' in *; clear C1 He1'.
  exists (round_nearest_even (shr_m mrs1) (loc_of_shr_record mrs1)).
  split; [rewrite <- A1; apply round_nearest_even_cases|].
  pose proof (round_nearest_even_cases (shr_m mrs1) (loc_of_shr_record mrs1)) as Hm1.
  destruct (round_nearest_even (shr_m mrs1) (loc_of_shr_record mrs1)) as [|p|p] eqn:Er;
    rewrite A1 in Hm1; [| |lia].
  - pose proof (shr_fexp_spec 0 e1 loc_Exact _ ltac:(lia) eq_refl) as [A2 _].
    destruct (shr_fexp prec emax 0 e1 loc_Exact) as [mrs2 e2]; simpl in A2.
    rewrite Z.div_0_l in A2 by (apply Z.pow_nonzero; lia); rewrite A2; reflexivity.
  - destruct (Z.ltb_spec (Zpos p) (2 ^ 53)) as [Hlt|Hge].
    + pose proof (Zdigits2_le (Zpos p) 53 ltac:(lia) Hlt ltac:(lia)) as Hd.
      pose proof (shr_fexp_spec (Zpos p) e1 loc_Exact 0 ltac:(lia)
                    ltac:(rewrite fexp_eq; lia)) as [A2 C2].
      destruct (shr_fexp prec emax (Zpos p) e1 loc_Exact) as [mrs2 e2]; simpl in A2, C2.
      rewrite A2, Z.div_1_r.
      replace e2 with e1 by lia; reflexivity.
    + assert (Hp : Zpos p = 2 ^ 53) by lia.
      pose proof (shr_fexp_spec (Zpos p) e1 loc_Exact 1 ltac:(lia)
                    ltac:(rewrite fexp_eq, Hp; change (Zdigits2 (2 ^ 53)) with 54; lia))
        as [A2 C2].
      destruct (shr_fexp prec emax (Zpos p) e1 loc_Exact) as [mrs2 e2]; simpl in A2, C2.
      rewrite Hp in A2; simpl in A2; rewrite A2.
      replace e2 with (e1 + 1) by lia; reflexivity.
Qed.

Lemma valid_finite : forall s m e,
  valid (S754_finite s m e) = true <->
  fexp prec emax (Zdigits2 (Zpos m) + e) = e /\ e <= 971.
Proof.
  intros s m e; unfold valid, valid_binary, bounded, canonical_mantissa.
  rewrite andb_true_iff, Z.eqb_eq, Z.leb_le.
  split; intros [H1 H2]; split; assumption.
Qed.

Lemma bra_valid : forall s M e l, 0 <= M -> e <= fexp prec emax (Zdigits2 M + e) ->
  valid (binary_round_aux prec emax s M e l) = true.
Proof.
  intros s M e l HM He.
  destruct (bra_cases s M e l _ _ HM He eq_refl eq_refl) as (Hq & H52 & Hemin & m1 & Hm1 & ->).
  set (e1 := fexp prec emax (Zdigits2 M + e)) in *.
  destruct m1 as [|p|p]; [reflexivity| |reflexivity].
  destruct (Z.ltb_spec (Zpos p) (2 ^ 53)) as [Hlt|Hge].
  - destruct (Z.leb_spec e1 971); [|reflexivity]; apply valid_finite;
      split; try lia; rewrite fexp_eq.
    pose proof (Zdigits2_le (Zpos p) 53 ltac:(lia) Hlt ltac:(lia)).
    destruct (Z.eq_dec e1 (-1074)) as [E|E]; [lia|].
    pose proof (Zdigits2_ge (Zpos p) 52 ltac:(lia) ltac:(lia) ltac:(lia)); lia.
  - destruct (Z.leb_spec (e1 + 1) 971); [|reflexivity]; apply valid_finite;
      split; try lia; rewrite fexp_eq.
    change (Zdigits2 (Zpos 4503599627370496)) with 53; lia.
Qed.

Lemma iter_xO : forall p m, Zpos (Pos.iter xO m p) = Zpos m * 2 ^ Zpos p.
Proof.
  induction p as [|p IH] using Pos.peano_ind; intros m; [simpl; lia|].
  rewrite Pos.iter_succ, Pos2Z.inj_xO, IH, Pos2Z.inj_succ, Z.pow_succ_r by lia; ring.
Qed.

Lemma Zdigits2_shift : forall m k, 0 < m -> 0 <= k -> Zdigits2 (m * 2 ^ k) = Zdigits2 m + k.
Proof.
  intros m k Hm Hk; pose proof (Zdigits2_bounds m Hm) as [B1 B2].
  assert (Hp : 0 < 2 ^ k) by (apply Z.pow_pos_nonneg; lia).
  apply Zdigits2_unique; [nia|].
  replace (Zdigits2 m + k - 1) with ((Zdigits2 m - 1) + k) by lia.
  pose proof (Zdigits2_ge m 0 Hm ltac:(simpl; lia) ltac:(lia)).
  rewrite !Z.pow_add_r by lia; nia.
Qed.

Lemma binary_round_valid : forall s m e, valid (binary_round prec emax s m e) = true.
Proof.
  intros s m e; unfold binary_round, shl_align.
  change (Zpos (digits2_pos m)) with (Zdigits2 (Zpos m)).
  destruct (fexp prec emax (Zdigits2 (Zpos m) + e) - e) as [|d|d] eqn:E;
    try (apply bra_valid; lia).
  apply bra_valid; [lia|].
  rewrite iter_xO, Zdigits2_shift by lia.
  rewrite !fexp_eq in *; lia.
Qed.

Lemma binary_normalize_valid : forall m e sz, valid (binary_normalize prec emax m e sz) = true.
Proof. intros [|m|m] e sz; [reflexivity|apply binary_round_valid..]. Qed.

Lemma of_Z_valid : forall n, valid (of_Z n) = true.
Proof. intros n; apply binary_normalize_valid. Qed.

Lemma neg_valid : forall x, valid x = true -> valid (neg x) = true.
Proof. intros [| | |] H; exact H. Qed.

Lemma abs_valid : forall x, valid x = true -> valid (abs x) = true.
Proof. intros [| | |] H; exact H. Qed.

Lemma add_valid : forall x y, valid x = true -> valid y = true -> valid (add x y) = true.
Proof.
  intros [sx|sx| |sx mx ex] [sy|sy| |sy my ey] Hx Hy; unfold add, SFadd;
    try destruct sx; try destruct sy; try assumption; try reflexivity;
    apply binary_normalize_valid.
Qed.

Lemma sub_valid : forall x y, valid x = true -> valid y = true -> valid (sub x y) = true.
Proof.
  intros [sx|sx| |sx mx ex] [sy|sy| |sy my ey] Hx Hy; unfold sub, SFsub;
    try destruct sx; try destruct sy; try assumption; try reflexivity;
    apply binary_normalize_valid.
Qed.

Lemma Zdigits2_pos_ge1 : forall m, 0 < m -> 1 <= Zdigits2 m.
Proof. intros m Hm; apply (Zdigits2_ge m 0 Hm); simpl; lia. Qed.

Lemma Zdigits2_mul : forall a b, 0 < a -> 0 < b ->
  Zdigits2 a + Zdigits2 b - 1 <= Zdigits2 (a * b).
Proof.
  intros a b Ha Hb.
  pose proof (Zdigits2_bounds a Ha) as [A1 _]; pose proof (Zdigits2_bounds b Hb) as [B1 _].
  pose proof (Zdigits2_pos_ge1 a Ha); pose proof (Zdigits2_pos_ge1 b Hb).
  assert (Hab : 2 ^ (Zdigits2 a + Zdigits2 b - 2) <= a * b).
  { replace (Zdigits2 a + Zdigits2 b - 2) with ((Zdigits2 a - 1) + (Zdigits2 b - 1)) by lia.
    rewrite Z.pow_add_r by lia; apply Z.mul_le_mono_nonneg; lia. }
  pose proof (Zdigits2_ge (a * b) _ ltac:(nia) Hab ltac:(lia)); lia.
Qed.

Lemma mul_valid : forall x y, valid x = true -> valid y = true -> valid (mul x y) = true.
Proof.
  intros [sx|sx| |sx mx ex] [sy|sy| |sy my ey] Hx Hy; unfold mul, SFmul;
    try reflexivity.
  apply valid_finite in Hx as [Hx1 Hx2]; apply valid_finite in Hy as [Hy1 Hy2].
  apply bra_valid; [lia|].
  rewrite Pos2Z.inj_mul.
  pose proof (Zdigits2_mul (Zpos mx) (Zpos my) ltac:(lia) ltac:(lia)).
  pose proof (Zdigits2_pos_ge1 (Zpos mx) ltac:(lia)).
  pose proof (Zdigits2_pos_ge1 (Zpos my) ltac:(lia)).
  rewrite !fexp_eq in *; lia.
Qed.

(** The division core returns a non-negative quotient whose exponent is at
    most the canonical one, which is what [bra_valid] needs. *)
Lemma div_core_spec : forall m1 e1 m2 e2, 0 < m1 -> 0 < m2 ->
  let '(q, e', l) := SFdiv_core_binary prec emax m1 e1 m2 e2 in
  0 <= q /\ e' <= fexp prec emax (Zdigits2 q + e').
Proof.
  intros m1 e1 m2 e2 H1 H2; unfold SFdiv_core_binary; cbv zeta.
  remember (Z.min (fexp prec emax (Zdigits2 m1 + e1 - (Zdigits2 m2 + e2))) (e1 - e2))
    as e' eqn:Ee'.
  assert (Hs : 0 <= e1 - e2 - e') by lia.
  assert (Hm : (match e1 - e2 - e' with Zpos _ => Z.shiftl m1 (e1 - e2 - e')
               | Z0 => m1 | Zneg _ => 0 end) = m1 * 2 ^ (e1 - e2 - e')).
  { destruct (e1 - e2 - e') as [|p|p] eqn:E; [lia| |lia].
    apply Z.shiftl_mul_pow2; lia. }
  rewrite Hm.
  assert (Hq : fst (Z.div_eucl (m1 * 2 ^ (e1 - e2 - e')) m2) = m1 * 2 ^ (e1 - e2 - e') / m2)
    by reflexivity.
  destruct (Z.div_eucl (m1 * 2 ^ (e1 - e2 - e')) m2) as [q r]; simpl in Hq; subst q.
  assert (Hp : 0 < 2 ^ (e1 - e2 - e')) by (apply Z.pow_pos_nonneg; lia).
  split; [apply Z.div_pos; nia|].
  pose proof (Zdigits2_bounds m1 H1) as [A1 _]; pose proof (Zdigits2_bounds m2 H2) as [_ B2].
  pose proof (Zdigits2_pos_ge1 m1 H1); pose proof (Zdigits2_pos_ge1 m2 H2).
  destruct (Z_lt_le_dec (Zdigits2 m1 + (e1 - e2 - e') - 1 - Zdigits2 m2) 0) as [Hk|Hk].
  - rewrite !fexp_eq in *; lia.
  - assert (Hq : 2 ^ (Zdigits2 m1 + (e1 - e2 - e') - 1 - Zdigits2 m2)
                 <= m1 * 2 ^ (e1 - e2 - e') / m2).
    { apply Z.div_le_lower_bound; [lia|].
      assert (E : 2 ^ (Zdigits2 m1 - 1) * 2 ^ (e1 - e2 - e')
                  = 2 ^ (Zdigits2 m1 + (e1 - e2 - e') - 1 - Zdigits2 m2) * 2 ^ Zdigits2 m2).
      { rewrite <- !Z.pow_add_r by lia; f_equal; lia. }
      assert (2 ^ (Zdigits2 m1 + (e1 - e2 - e') - 1 - Zdigits2 m2) * m2
              <= 2 ^ (Zdigits2 m1 + (e1 - e2 - e') - 1 - Zdigits2 m2) * 2 ^ Zdigits2 m2)
        by (apply Z.mul_le_mono_nonneg_l; [apply Z.pow_nonneg|]; lia).
      assert (2 ^ (Zdigits2 m1 - 1) * 2 ^ (e1 - e2 - e') <= m1 * 2 ^ (e1 - e2 - e'))
        by (apply Z.mul_le_mono_nonneg_r; lia).
      lia. }
    pose proof (Z.pow_pos_nonneg 2 _ ltac:(lia) Hk).
    pose proof (Zdigits2_ge (m1 * 2 ^ (e1 - e2 - e') / m2) _ ltac:(lia) Hq Hk).
    rewrite !fexp_eq in *; lia.
Qed.

Lemma div_valid : forall x y, valid (div x y) = true.
Proof.
  intros [sx|sx| |sx mx ex] [sy|sy| |sy my ey]; unfold div, SFdiv; try reflexivity.
  pose proof (div_core_spec (Zpos mx) ex (Zpos my) ey ltac:(lia) ltac:(lia)) as H.
  destruct (SFdiv_core_binary prec emax (Zpos mx) ex (Zpos my) ey) as [[q e'] l].
  apply bra_valid; tauto.
Qed.

End F64Facts.

(** ** Concrete runs *)

Lemma fast_ball_scores_and_slows :
  match Game.update test_random_bool test_gen_range [] tick fast_ball_state O with
  | Some (s', _) =>
      (player2_score s' =? 1)
      && lt (speed (bvelocity (ball s'))) (speed (bvelocity (ball fast_ball_state)))
  | None => false
  end = true.
Proof. vm_compute. reflexivity. Qed.

Lemma ball_leaves_field_top :
  match Game.update test_random_bool test_gen_range [] (mkDuration 2 0)
          (test_game 60 18 1 1) O with
  | Some (s', _) =>
      lt (of_Z (height s')) (y (bposition (ball s')))
      && (player1_score s' =? 0) && (player2_score s' =? 0)
  | None => false
  end = true.
Proof. vm_compute. reflexivity. Qed.

Lemma paddle_pushed_above_top :
  let p := player1 (test_game 60 2 2 2) in
  lt (sub (of_Z 2) (of_Z (extend_up p)))
     (y (position (Player.update_position (of_Z 2) [] tick p))) = true.
Proof. vm_compute. reflexivity. Qed.

Lemma collides_with_underflow_panics :
  let p := player1 (test_game 60 2 1 2) in
  let q := Position2D_new zero zero in
  let own := to_discrete (position p) in
  (dx own =? dx (to_discrete q))
  && (dy own - extend_down p <=? dy (to_discrete q))
  && (dy (to_discrete q) <=? dy own + extend_up p) = true /\
  Player.collides_with p q = None.
Proof. vm_compute. split; reflexivity. Qed.

Lemma fresh_game_no_underflow :
  let g := test_game 60 3 1 2 in
  height g < 2 * extend_down (player1 g) /\
  extend_down (player1 g) <= round_as_usize (y (position (player1 g))) /\
  Player.collides_with (player1 g) (Position2D_new zero zero) = Some true.
Proof. vm_compute. repeat split; try reflexivity; discriminate. Qed.

(** ** Witnesses: the claims' theorems at concrete inputs *)

Lemma update_position_tests_one_paddle_witness :
  le (vx (bvelocity (ball fast_ball_state))) zero = true /\
  Ball.update_position (of_Z 18) (player1 fast_ball_state)
    (player2 (test_game 60 18 3 3)) tick (ball fast_ball_state) =
  Ball.update_position (of_Z 18) (player1 fast_ball_state)
    (player2 fast_ball_state) tick (ball fast_ball_state).
Proof.
  assert (Hv : le (vx (bvelocity (ball fast_ball_state))) zero = true)
    by (vm_compute; reflexivity).
  split; [exact Hv|].
  exact (proj1 (proj1 (proj2 (update_position_tests_one_paddle (of_Z 18)
    (player1 fast_ball_state) (player2 fast_ball_state) tick (ball fast_ball_state))) Hv)
    (player2 (test_game 60 18 3 3))).
Defined.

Lemma wall_check_flips_vy_witness :
  match Ball.update_position (of_Z 18) (player1 (test_game 60 18 1 1))
          (player2 (test_game 60 18 1 1)) (mkDuration 2 0) (ball (test_game 60 18 1 1)) with
  | Some b' =>
      (le (y (Ball.calc_next_position (mkDuration 2 0) (ball (test_game 60 18 1 1)))) zero
       || le (of_Z 18) (y (Ball.calc_next_position (mkDuration 2 0)
                              (ball (test_game 60 18 1 1))))) = true /\
      vy (bvelocity b') = mul (neg (vy (bvelocity (ball (test_game 60 18 1 1)))))
                              VELOCITY_INCREASE
  | None => False
  end.
Proof.
  destruct (Ball.update_position (of_Z 18) (player1 (test_game 60 18 1 1))
          (player2 (test_game 60 18 1 1)) (mkDuration 2 0) (ball (test_game 60 18 1 1)))
    as [b'|] eqn:E; [|vm_compute in E; discriminate].
  assert (Hw : (le (y (Ball.calc_next_position (mkDuration 2 0) (ball (test_game 60 18 1 1))))
                   zero
                || le (of_Z 18) (y (Ball.calc_next_position (mkDuration 2 0)
                                      (ball (test_game 60 18 1 1))))) = true)
    by (vm_compute; reflexivity).
  split; [exact Hw|].
  exact (proj2 (proj2 (proj1 (wall_check_flips_vy _ _ _ _ _ b' E) Hw))).
Defined.

Lemma zero_vx_no_paddle_bounce_witness :
  let b := Ball_mk (Position2D_new (lit 30) (lit 9)) (Velocity2D_new zero (lit 3)) in
  vx (bvelocity b) = S754_zero false /\
  Ball.update_position (of_Z 18) (player1 (test_game 60 18 1 1))
    (player2 (test_game 60 18 1 1)) tick b =
  Some (Ball.integrate tick (Ball.update_if_collision_with_wall (of_Z 18) tick b)).
Proof.
  split; [reflexivity|].
  exact (proj1 (proj2 (zero_vx_no_paddle_bounce (of_Z 18) (player1 (test_game 60 18 1 1))
    (player2 (test_game 60 18 1 1)) tick
    (Ball_mk (Position2D_new (lit 30) (lit 9)) (Velocity2D_new zero (lit 3))) false eq_refl))).
Defined.

Lemma update_score_cases_witness :
  let s := fast_ball_state in
  let h := of_Z (height s) in
  contains_key [] (Char "r"%char) = false /\
  match Ball.update_position h (Player.update_position h [] tick (player1 s))
          (Player.update_position h [] tick (player2 s)) tick (ball s) with
  | Some b => ~ (le (vx (bvelocity b)) zero = true /\ lt zero (vx (bvelocity b)) = true)
  | None => False
  end.
Proof.
  cbv zeta; split; [reflexivity|].
  destruct (Ball.update_position (of_Z (height fast_ball_state))
      (Player.update_position (of_Z (height fast_ball_state)) [] tick (player1 fast_ball_state))
      (Player.update_position (of_Z (height fast_ball_state)) [] tick (player2 fast_ball_state))
      tick (ball fast_ball_state)) as [b|] eqn:E; [|vm_compute in E; discriminate].
  exact (proj2 (proj1 (update_score_cases test_random_bool test_gen_range)
    [] tick fast_ball_state O eq_refl b E)).
Defined.

Lemma reset_layout_and_velocity_witness :
  gen_range_contract test_gen_range /\
  position (player1 (fst (Game.reset_ball_and_players test_random_bool test_gen_range
                            fast_ball_state O))) =
  Position2D_new zero (div (of_Z 18) (lit 2)).
Proof.
  assert (Hc : gen_range_contract test_gen_range).
  { intros low high r Hlt; split; [exact (le_refl_of_lt _ _ Hlt)|exact Hlt]. }
  split; [exact Hc|].
  exact (proj1 (proj2 (reset_layout_and_velocity test_random_bool test_gen_range Hc
    fast_ball_state O))).
Defined.

(** ** Ordering facts for [min], [max] and [n as f64] *)

Lemma le_not_nan : forall a b, le a b = true -> is_nan a = false /\ is_nan b = false.
Proof. intros [| | |] [| | |] H; try discriminate; split; reflexivity. Qed.

Lemma le_refl_nn : forall a, is_nan a = false -> le a a = true.
Proof.
  intros [s|s| |s m e] H; try discriminate; unfold le, SFleb, SFcompare;
    destruct s; try reflexivity; rewrite Z.compare_refl, Pos.compare_cont_refl; reflexivity.
Qed.

Lemma compare_some : forall a b, is_nan a = false -> is_nan b = false -> SFcompare a b <> None.
Proof.
  intros [sa|sa| |sa ma ea] [sb|sb| |sb mb eb] Ha Hb; try discriminate; simpl;
    try destruct sa; try destruct sb; try destruct (ea ?= eb); discriminate.
Qed.

Lemma not_lt_le : forall a b, is_nan a = false -> is_nan b = false ->
  lt a b = false -> le b a = true.
Proof.
  intros a b Ha Hb H; pose proof (compare_some a b Ha Hb) as Hs.
  unfold le, lt, SFleb, SFltb in *; rewrite SFcompare_swap.
  destruct (SFcompare a b) as [[]|]; simpl in *; congruence.
Qed.

Lemma lt_le : forall a b, lt a b = true -> le a b = true.
Proof.
  unfold le, lt, SFleb, SFltb; intros a b H; destruct (SFcompare a b) as [[]|]; congruence.
Qed.

Lemma max_ge_r : forall a b, is_nan b = false -> le b (max a b) = true.
Proof.
  intros a b Hb; unfold max; rewrite Hb.
  destruct (is_nan a) eqn:Ha; [apply le_refl_nn; exact Hb|].
  destruct (lt a b) eqn:Hab; [apply le_refl_nn; exact Hb|].
  apply not_lt_le; assumption.
Qed.

Lemma min_le_r : forall a b, is_nan b = false -> le (min a b) b = true.
Proof.
  intros a b Hb; unfold min; rewrite Hb.
  destruct (is_nan a) eqn:Ha; [apply le_refl_nn; exact Hb|].
  destruct (lt b a) eqn:Hab; [apply le_refl_nn; exact Hb|].
  apply not_lt_le; assumption.
Qed.

Lemma max_min_le : forall a lo hi, le lo hi = true -> le (max (min a hi) lo) hi = true.
Proof.
  intros a lo hi H; pose proof (le_not_nan _ _ H) as [Hlo Hhi].
  unfold max at 1; rewrite Hlo.
  destruct (is_nan (min a hi)); [exact H|].
  destruct (lt (min a hi) lo); [exact H|].
  apply min_le_r; exact Hhi.
Qed.

Lemma binary_round_pre : forall s m e, exists M e0,
  0 <= M /\ e0 <= fexp prec emax (Zdigits2 M + e0) /\
  binary_round prec emax s m e = binary_round_aux prec emax s M e0 loc_Exact.
Proof.
  intros s m e; unfold binary_round, shl_align.
  change (Zpos (digits2_pos m)) with (Zdigits2 (Zpos m)).
  destruct (fexp prec emax (Zdigits2 (Zpos m) + e) - e) as [|d|d] eqn:E.
  - exists (Zpos m), e; repeat split; [lia|lia].
  - exists (Zpos m), e; repeat split; [lia|lia].
  - exists (Zpos (Pos.iter xO m d)), (fexp prec emax (Zdigits2 (Zpos m) + e)).
    repeat split; [lia|].
    rewrite F64Facts.iter_xO, F64Facts.Zdigits2_shift by lia.
    rewrite !F64Facts.fexp_eq in *; lia.
Qed.

Lemma bra_not_nan : forall s M e l, 0 <= M -> e <= fexp prec emax (Zdigits2 M + e) ->
  is_nan (binary_round_aux prec emax s M e l) = false.
Proof.
  intros s M e l HM He.
  destruct (F64Facts.bra_cases s M e l _ _ HM He eq_refl eq_refl)
    as (_ & _ & _ & m1 & _ & ->).
  destruct m1; try reflexivity; destruct (_ <? _), (_ <=? _); reflexivity.
Qed.

Lemma of_Z_not_nan : forall n, is_nan (of_Z n) = false.
Proof.
  intros [|p|p]; [reflexivity| |]; unfold of_Z, binary_normalize;
    match goal with |- is_nan (binary_round _ _ ?s ?m ?e) = false =>
      destruct (binary_round_pre s m e) as (M & e0 & HM & He & ->) end;
    apply bra_not_nan; assumption.
Qed.

Lemma add_zero_nan : forall a, is_nan (add zero a) = is_nan a.
Proof. intros [[]|[]| |]; reflexivity. Qed.


(** ** Exact conversions: [n as f64] for [n <= 2^53], halving, rounding to a cell *)

Lemma shr_fexp_noshift : forall m e l, fexp prec emax (Zdigits2 m + e) - e <= 0 ->
  shr_fexp prec emax m e l = (shr_record_of_loc m l, e).
Proof.
  intros m e l H; unfold shr_fexp, shr.
  destruct (fexp prec emax (Zdigits2 m + e) - e) eqn:E; [reflexivity|lia|reflexivity].
Qed.

Lemma bra_exact : forall s M e, 0 < M < 2 ^ 53 ->
  fexp prec emax (Zdigits2 M + e) = e -> e <= 971 ->
  binary_round_aux prec emax s M e loc_Exact = S754_finite s (Z.to_pos M) e.
Proof.
  intros s [|p|p] e HM Hf He; try lia.
  unfold binary_round_aux; rewrite shr_fexp_noshift by lia; cbn [shr_m loc_of_shr_record
    shr_record_of_loc round_nearest_even].
  rewrite shr_fexp_noshift by lia; cbn [shr_m shr_record_of_loc].
  change (emax - prec) with 971.
  destruct (Z.leb_spec e 971); [reflexivity|lia].
Qed.

Lemma of_Z_form : forall d, 0 < d < 2 ^ 53 ->
  of_Z d = S754_finite false (Z.to_pos (d * 2 ^ (53 - Zdigits2 d))) (Zdigits2 d - 53).
Proof.
  intros [|p|p] Hd; try lia.
  pose proof (F64Facts.Zdigits2_le (Zpos p) 53 ltac:(lia) ltac:(lia) ltac:(lia)) as Hd53.
  pose proof (F64Facts.Zdigits2_pos_ge1 (Zpos p) ltac:(lia)) as Hd1.
  unfold of_Z, binary_normalize, binary_round, shl_align.
  change (Zpos (digits2_pos p)) with (Zdigits2 (Zpos p)).
  rewrite F64Facts.fexp_eq.
  replace (Z.max (Zdigits2 (Zpos p) + 0 - 53) (-1074)) with (Zdigits2 (Zpos p) - 53) by lia.
  destruct (Zdigits2 (Zpos p) - 53 - 0) as [|k|k] eqn:E.
  - replace (53 - Zdigits2 (Zpos p)) with 0 by lia; rewrite Z.mul_1_r.
    replace (Zdigits2 (Zpos p) - 53) with 0 by lia.
    apply bra_exact; [lia| |lia].
    rewrite F64Facts.fexp_eq; lia.
  - lia.
  - replace (53 - Zdigits2 (Zpos p)) with (Zpos k) by lia.
    rewrite <- F64Facts.iter_xO.
    apply bra_exact.
    + rewrite F64Facts.iter_xO; split; [nia|].
      pose proof (F64Facts.Zdigits2_bounds (Zpos p) ltac:(lia)) as [_ B].
      replace (2 ^ 53) with (2 ^ Zdigits2 (Zpos p) * 2 ^ Zpos k)
        by (rewrite <- Z.pow_add_r by lia; f_equal; lia).
      apply Z.mul_lt_mono_pos_r; [lia|exact B].
    + rewrite F64Facts.iter_xO, F64Facts.Zdigits2_shift, F64Facts.fexp_eq by lia; lia.
    + lia.
Qed.

Lemma of_Z_two_pow_53 : of_Z (2 ^ 53) = S754_finite false 4503599627370496 1.
Proof. vm_compute; reflexivity. Qed.

Lemma round_finite_mono : forall m1 m2 e, Zpos m1 <= Zpos m2 ->
  round_as_usize (S754_finite false m1 e) <= round_as_usize (S754_finite false m2 e).
Proof.
  intros m1 m2 e H; unfold round_as_usize.
  apply Z.min_le_compat_l.
  destruct (Z.leb_spec 0 e).
  - apply Z.mul_le_mono_nonneg_r; [apply Z.pow_nonneg|]; lia.
  - apply Z.div_le_mono; [apply Z.pow_pos_nonneg|]; lia.
Qed.

Lemma round_of_Z : forall d, 0 <= d <= 2 ^ 53 -> round_as_usize (of_Z d) = d.
Proof.
  intros d Hd.
  destruct (Z.eq_dec d 0) as [->|H0]; [reflexivity|].
  destruct (Z.eq_dec d (2 ^ 53)) as [->|H53]; [rewrite of_Z_two_pow_53; reflexivity|].
  rewrite of_Z_form by lia.
  pose proof (F64Facts.Zdigits2_le d 53 ltac:(lia) ltac:(lia) ltac:(lia)) as Hd53.
  pose proof (F64Facts.Zdigits2_pos_ge1 d ltac:(lia)) as Hd1.
  assert (Hp : 0 < 2 ^ (53 - Zdigits2 d)) by (apply Z.pow_pos_nonneg; lia).
  unfold round_as_usize; rewrite Z2Pos.id by nia.
  destruct (Z.leb_spec 0 (Zdigits2 d - 53)).
  - replace (53 - Zdigits2 d) with 0 by lia; replace (Zdigits2 d - 53) with 0 by lia.
    unfold usize_max; lia.
  - replace (- (Zdigits2 d - 53)) with (53 - Zdigits2 d) by lia.
    rewrite Z.div_add_l by lia.
    rewrite (Z.div_small (2 ^ (53 - Zdigits2 d - 1))).
    + unfold usize_max; lia.
    + split; [apply Z.pow_nonneg; lia|].
      apply Z.pow_lt_mono_r; lia.
Qed.

Lemma lit_two : lit 2 = S754_finite false 4503599627370496 (-51).
Proof. vm_compute; reflexivity. Qed.

Lemma div_two_core : forall m e, Zdigits2 (Zpos m) = 53 -> -1072 <= e ->
  SFdiv_core_binary prec emax (Zpos m) e (Zpos 4503599627370496) (-51)
  = (2 * Zpos m, e - 2, loc_Exact).
Proof.
  intros m e Hd He; unfold SFdiv_core_binary; cbv zeta.
  rewrite Hd; change (Zdigits2 (Zpos 4503599627370496)) with 53.
  remember (Z.min (fexp prec emax (53 + e - (53 + -51))) (e - -51)) as e' eqn:Ee'.
  assert (He' : e' = e - 2) by (rewrite F64Facts.fexp_eq in Ee'; lia).
  assert (Hm : (match e - -51 - e' with Zpos _ => Z.shiftl (Zpos m) (e - -51 - e')
               | Z0 => Zpos m | Zneg _ => 0 end) = Zpos m * 2 ^ 53).
  { replace (e - -51 - e') with 53 by lia; apply Z.shiftl_mul_pow2; lia. }
  rewrite Hm.
  assert (Hq : fst (Z.div_eucl (Zpos m * 2 ^ 53) (Zpos 4503599627370496))
               = Zpos m * 2 ^ 53 / Zpos 4503599627370496) by reflexivity.
  assert (Hr : snd (Z.div_eucl (Zpos m * 2 ^ 53) (Zpos 4503599627370496))
               = Zpos m * 2 ^ 53 mod Zpos 4503599627370496) by reflexivity.
  assert (E53 : Zpos m * 2 ^ 53 = (2 * Zpos m) * Zpos 4503599627370496)
    by (change (2 ^ 53) with (2 * 4503599627370496); ring).
  rewrite E53, Z.div_mul in Hq by lia; rewrite E53, Z.mod_mul in Hr by lia.
  rewrite <- E53 in Hq, Hr.
  destruct (Z.div_eucl (Zpos m * 2 ^ 53) (Zpos 4503599627370496)) as [q r].
  simpl in Hq, Hr; subst q r; rewrite He'; reflexivity.
Qed.

Lemma bra_halve : forall s m e, Zdigits2 (Zpos m) = 53 -> -1074 <= e <= 971 ->
  binary_round_aux prec emax s (2 * Zpos m) (e - 1) loc_Exact = S754_finite s m e.
Proof.
  intros s m e Hd He.
  change (2 * Zpos m) with (Zpos (xO m)).
  assert (HD : Zdigits2 (Zpos (xO m)) = 54).
  { change (Zdigits2 (Zpos (xO m))) with (Zpos (Pos.succ (digits2_pos m))).
    rewrite Pos2Z.inj_succ; change (Zpos (digits2_pos m)) with (Zdigits2 (Zpos m)); lia. }
  unfold binary_round_aux, shr_fexp at 1, shr.
  destruct (fexp prec emax (Zdigits2 (Zpos (xO m)) + (e - 1)) - (e - 1)) as [|p|p] eqn:E;
    rewrite HD, F64Facts.fexp_eq in E; try lia.
  assert (p = 1%positive) by lia; subst p.
  cbn [iter_pos shr_1 shr_record_of_loc shr_m loc_of_shr_record round_nearest_even orb].
  change IntDef.Z.add with Z.add.
  rewrite shr_fexp_noshift by (rewrite Hd, F64Facts.fexp_eq; lia).
  cbn [shr_m shr_record_of_loc].
  change (emax - prec) with 971.
  replace (e - 1 + 1) with e by lia.
  destruct (Z.leb_spec e 971); [reflexivity|lia].
Qed.

Lemma div_two_exact : forall m e, Zdigits2 (Zpos m) = 53 -> -1072 <= e <= 972 ->
  div (S754_finite false m e) (lit 2) = S754_finite false m (e - 1).
Proof.
  intros m e Hd He; rewrite lit_two; unfold div, SFdiv.
  rewrite div_two_core by (assumption || lia).
  replace (e - 2) with (e - 1 - 1) by lia.
  apply bra_halve; [assumption|lia].
Qed.

Lemma round_half : forall h, 0 <= h <= 2 ^ 53 ->
  round_as_usize (div (of_Z h) (lit 2)) = (h + 1) / 2.
Proof.
  intros h Hh.
  destruct (Z.eq_dec h 0) as [->|H0]; [vm_compute; reflexivity|].
  destruct (Z.eq_dec h (2 ^ 53)) as [->|H53].
  { rewrite of_Z_two_pow_53, div_two_exact by (reflexivity || lia); vm_compute; reflexivity. }
  pose proof (F64Facts.Zdigits2_le h 53 ltac:(lia) ltac:(lia) ltac:(lia)) as Hd53.
  pose proof (F64Facts.Zdigits2_pos_ge1 h ltac:(lia)) as Hd1.
  assert (Hp : 0 < 2 ^ (53 - Zdigits2 h)) by (apply Z.pow_pos_nonneg; lia).
  rewrite of_Z_form by lia.
  rewrite div_two_exact.
  2:{ rewrite Z2Pos.id by nia; rewrite F64Facts.Zdigits2_shift by lia; lia. }
  2:{ lia. }
  unfold round_as_usize; rewrite Z2Pos.id by nia.
  destruct (Z.leb_spec 0 (Zdigits2 h - 53 - 1)); [lia|].
  replace (- (Zdigits2 h - 53 - 1) - 1) with (53 - Zdigits2 h) by lia.
  replace (- (Zdigits2 h - 53 - 1)) with (1 + (53 - Zdigits2 h)) by lia.
  rewrite Z.pow_add_r by lia.
  replace (h * 2 ^ (53 - Zdigits2 h) + 2 ^ (53 - Zdigits2 h))
    with ((h + 1) * 2 ^ (53 - Zdigits2 h)) by ring.
  rewrite Z.div_mul_cancel_r by lia.
  assert ((h + 1) / 2 <= h) by (apply Z.div_le_upper_bound; lia).
  unfold usize_max; change (2 ^ 53) with 9007199254740992 in Hh;
    change (2 ^ 64 - 1) with 18446744073709551615; rewrite Z.pow_1_r; lia.
Qed.

Lemma round_nonneg : forall f, 0 <= round_as_usize f.
Proof.
  intros [[]|[]| |[] m e]; unfold round_as_usize, usize_max; try lia.
  apply Z.min_glb; [lia|].
  destruct (Z.leb_spec 0 e).
  - pose proof (Z.pow_nonneg 2 e ltac:(lia)); nia.
  - apply Z.div_pos; [pose proof (Z.pow_nonneg 2 (- e - 1) ltac:(lia)); lia|].
    apply Z.pow_pos_nonneg; lia.
Qed.

(** Rounding a value that is at least [d as f64] gives at least [d]. *)
Lemma le_of_Z_round : forall d f, valid f = true -> 0 <= d < 2 ^ 53 ->
  le (of_Z d) f = true -> d <= round_as_usize f.
Proof.
  intros d f Hf Hd Hle.
  destruct (Z.eq_dec d 0) as [->|H0]; [apply round_nonneg|].
  pose proof (round_of_Z d ltac:(lia)) as Hr.
  rewrite of_Z_form in Hle, Hr by lia.
  pose proof (F64Facts.Zdigits2_le d 53 ltac:(lia) ltac:(lia) ltac:(lia)) as Hd53.
  pose proof (F64Facts.Zdigits2_bounds d ltac:(lia)) as [_ Hdb].
  pose proof (F64Facts.Zdigits2_pos_ge1 d ltac:(lia)) as Hd1.
  assert (Hmax : 2 ^ 53 <= usize_max) by (vm_compute; discriminate).
  destruct f as [[]|[]| |[] m e]; unfold le, SFleb, SFcompare in Hle;
    try discriminate.
  - unfold round_as_usize; lia.
  - apply F64Facts.valid_finite in Hf as [Hfe He].
    destruct (Z.compare_spec (Zdigits2 d - 53) e) as [Ee|Lt|Gt]; try discriminate.
    + rewrite <- Hr, <- Ee; apply round_finite_mono.
      destruct (Pos.compare_cont Eq (Z.to_pos (d * 2 ^ (53 - Zdigits2 d))) m) eqn:C;
        try discriminate.
      * apply Pos.compare_eq in C; rewrite C; lia.
      * apply Pos2Z.pos_lt_pos in C; lia.
    + pose proof (F64Facts.Zdigits2_bounds (Zpos m) ltac:(lia)) as [Hmb _].
      rewrite F64Facts.fexp_eq in Hfe.
      assert (Hdm : Zdigits2 (Zpos m) = 53) by lia.
      rewrite Hdm in Hmb; change (53 - 1) with 52 in Hmb.
      assert (Hd2 : d < 2 ^ (52 + e)).
      { apply (Z.lt_le_trans _ _ _ Hdb); apply Z.pow_le_mono_r; lia. }
      unfold round_as_usize; apply Z.min_glb; [lia|].
      destruct (Z.leb_spec 0 e).
      * rewrite Z.pow_add_r in Hd2 by lia.
        apply Z.lt_le_incl, (Z.lt_le_trans _ _ _ Hd2).
        apply Z.mul_le_mono_nonneg_r; [apply Z.pow_nonneg|]; lia.
      * assert (Hk : 2 ^ (52 + e) * 2 ^ (- e) = 2 ^ 52)
          by (rewrite <- Z.pow_add_r by lia; f_equal; lia).
        assert (2 ^ (52 + e) <= (Zpos m + 2 ^ (- e - 1)) / 2 ^ (- e)).
        { apply Z.div_le_lower_bound; [apply Z.pow_pos_nonneg; lia|].
          pose proof (Z.pow_nonneg 2 (- e - 1) ltac:(lia)); lia. }
        lia.
Qed.

Lemma min_valid : forall a b, valid a = true -> valid b = true -> valid (min a b) = true.
Proof.
  intros a b Ha Hb; unfold min; destruct (is_nan a), (is_nan b), (lt b a); assumption.
Qed.

Lemma max_valid : forall a b, valid a = true -> valid b = true -> valid (max a b) = true.
Proof.
  intros a b Ha Hb; unfold max; destruct (is_nan a), (is_nan b), (lt a b); assumption.
Qed.

Lemma as_secs_f64_valid : forall dt, valid (as_secs_f64 dt) = true.
Proof.
  intros dt; apply F64Facts.add_valid; [apply F64Facts.of_Z_valid|apply F64Facts.div_valid].
Qed.

Lemma add_zero_of_Z : forall d, 0 <= d < 2 ^ 53 -> add zero (of_Z d) = of_Z d.
Proof.
  intros d Hd; destruct (Z.eq_dec d 0) as [->|H0]; [reflexivity|].
  rewrite of_Z_form by lia; reflexivity.
Qed.

Lemma paddle_update_y_valid : forall H keys dt p,
  valid H = true -> valid (y (position p)) = true -> valid (vy (velocity p)) = true ->
  valid (y (position (Player.update_position H keys dt p))) = true.
Proof.
  intros H keys dt p HH Hy Hv; unfold Player.update_position; cbv zeta.
  cbn [Player.with_position position y].
  pose proof (as_secs_f64_valid dt) as Ht.
  apply max_valid; [apply min_valid|].
  - destruct (contains_key keys (key_up p)), (contains_key keys (key_down p)); cbn [y];
      repeat first [ assumption | apply F64Facts.add_valid | apply F64Facts.sub_valid
                   | apply F64Facts.mul_valid ].
  - apply F64Facts.sub_valid; [assumption|apply F64Facts.of_Z_valid].
  - apply F64Facts.add_valid; [reflexivity|apply F64Facts.of_Z_valid].
Qed.

(** C10 (amended).  In [Player::collides_with] the [usize] subtraction
    [own_y - extend_down] cannot underflow when the paddle's rounded [y] is
    at least [extend_down], and then the only remaining panic is the
    overflow of [own_y + extend_up].  Every [Player::update_position]
    establishes that precondition through its clamp (for [extend_down]
    below [2^53], from valid floats).  A fresh [GameState] with [height] at
    most [2^53] does not: its paddles sit at [height / 2.0], whose rounded
    value is [(height + 1) / 2] in integer division, and when [extend_down]
    exceeds that value every [collides_with] query on either paddle
    underflows.  Above [2^53], [height as f64] rounds and the rounded row
    need not be [(height + 1) / 2]. *)
Theorem collides_with_underflow_guard :
  (forall p q,
     extend_down p <= dy (to_discrete (position p)) ->
     usize_sub (dy (to_discrete (position p))) (extend_down p) <> None /\
     (Player.collides_with p q = None ->
      usize_max < dy (to_discrete (position p)) + extend_up p)) /\
  (forall H keys dt p,
     valid H = true -> valid (y (position p)) = true ->
     valid (vy (velocity p)) = true -> 0 <= extend_down p < 2 ^ 53 ->
     extend_down p <= dy (to_discrete (position (Player.update_position H keys dt p)))) /\
  (forall (Rng : Type) rb gr w h up down (r : Rng), 0 <= h <= 2 ^ 53 ->
     let g := fst (Game.new rb gr w h up down r) in
     dy (to_discrete (position (player1 g))) = (h + 1) / 2 /\
     dy (to_discrete (position (player2 g))) = (h + 1) / 2 /\
     ((h + 1) / 2 < down -> forall q,
        Player.collides_with (player1 g) q = None /\
        Player.collides_with (player2 g) q = None)).
Proof.
  split; [|split].
  - intros p q Hd; unfold usize_sub; destruct (Z.ltb_spec (dy (to_discrete (position p)))
      (extend_down p)) as [Hlt|_]; [lia|]; split; [discriminate|].
    unfold Player.collides_with, usize_sub, usize_add.
    destruct (Z.ltb_spec (dy (to_discrete (position p))) (extend_down p)); [lia|].
    destruct (_ <=? _); [|discriminate].
    destruct (Z.ltb_spec usize_max (dy (to_discrete (position p)) + extend_up p));
      [lia|discriminate].
  - intros H keys dt p HH Hy Hv Hd.
    cbn [to_discrete dy].
    apply le_of_Z_round; [apply paddle_update_y_valid; assumption|lia|].
    rewrite <- add_zero_of_Z by lia.
    unfold Player.update_position; cbv zeta; cbn [Player.with_position position y].
    apply max_ge_r; rewrite add_zero_nan; apply of_Z_not_nan.
  - intros Rng rb gr w h up down r Hh; cbv zeta.
    set (g := fst (Game.new rb gr w h up down r)).
    assert (E : y (position (player1 g)) = div (of_Z h) (lit 2) /\
                y (position (player2 g)) = div (of_Z h) (lit 2) /\
                extend_down (player1 g) = down /\ extend_down (player2 g) = down).
    { subst g; unfold Game.new; destruct (Game.ball_new rb gr _ r);
        repeat split; reflexivity. }
    destruct E as (E1 & E2 & D1 & D2).
    unfold Player.collides_with, to_discrete, usize_sub; cbn [dy].
    rewrite E1, E2, D1, D2, round_half by exact Hh.
    split; [reflexivity|split; [reflexivity|]].
    intros Hlt q.
    destruct (Z.ltb_spec ((h + 1) / 2) down); [split; reflexivity|lia].
Qed.

Lemma collides_with_underflow_guard_witness :
  let p := player1 (test_game 60 18 1 1) in
  let g := test_game 60 3 1 3 in
  usize_sub (dy (to_discrete (position p))) (extend_down p) <> None /\
  extend_down p <= dy (to_discrete (position
                         (Player.update_position (of_Z 18) [Char "s"%char] tick p))) /\
  Player.collides_with (player1 g) (Position2D_new zero zero) = None.
Proof.
  cbv zeta.
  destruct collides_with_underflow_guard as (A & B & C).
  split; [|split].
  - refine (proj1 (A _ (Position2D_new zero zero) _)); vm_compute; discriminate.
  - apply (B (of_Z 18) [Char "s"%char] tick (player1 (test_game 60 18 1 1)));
      vm_compute; repeat split; try reflexivity; discriminate.
  - refine (proj1 (proj2 (proj2 (C nat test_random_bool test_gen_range 60 3 1 3 O _)) _ _)).
    + vm_compute; split; discriminate.
    + vm_compute; reflexivity.
Defined.

(** ** Escalation by [VELOCITY_INCREASE] *)

Lemma VELOCITY_INCREASE_eq : VELOCITY_INCREASE = S754_finite false 4517110426252607 (-52).
Proof. vm_compute; reflexivity. Qed.

Lemma abs_bra : forall s M e l,
  abs (binary_round_aux prec emax s M e l) = binary_round_aux prec emax false M e l.
Proof.
  intros s M e l; unfold binary_round_aux.
  destruct (shr_fexp prec emax M e l) as [r1 e1].
  destruct (shr_fexp prec emax (round_nearest_even (shr_m r1) (loc_of_shr_record r1)) e1
              loc_Exact) as [r2 e2].
  destruct (shr_m r2); [reflexivity| |reflexivity].
  destruct (e2 <=? emax - prec); reflexivity.
Qed.

Lemma le_finite_exp : forall m m' e e', e < e' ->
  le (S754_finite false m e) (S754_finite false m' e') = true.
Proof.
  intros m m' e e' H; unfold le, SFleb, SFcompare.
  destruct (Z.compare_spec e e'); [lia|reflexivity|lia].
Qed.

Lemma le_finite_mant : forall m m' e, Zpos m <= Zpos m' ->
  le (S754_finite false m e) (S754_finite false m' e) = true.
Proof.
  intros m m' e H; unfold le, SFleb, SFcompare; rewrite Z.compare_refl.
  change (Pos.compare_cont Eq m m') with (Pos.compare m m').
  destruct (Pos.compare_spec m m'); [reflexivity|reflexivity|lia].
Qed.

(** Multiplying a positive valid finite value by [VELOCITY_INCREASE]
    (above [1]) rounds to a value no smaller. *)
Lemma mul_increase_ge : forall m e,
  fexp prec emax (Zdigits2 (Zpos m) + e) = e ->
  le (S754_finite false m e)
     (binary_round_aux prec emax false (Zpos (m * 4517110426252607)) (e + -52) loc_Exact)
  = true.
Proof.
  intros m e Hv.
  rewrite Pos2Z.inj_mul.
  set (M := Zpos m * Zpos 4517110426252607).
  pose proof (F64Facts.Zdigits2_bounds (Zpos m) ltac:(lia)) as [Hm1 Hm2].
  pose proof (F64Facts.Zdigits2_pos_ge1 (Zpos m) ltac:(lia)) as HD1.
  assert (HdM : Zdigits2 (Zpos m) + 52 <= Zdigits2 M).
  { enough (Zdigits2 (Zpos m) - 1 + 52 + 1 <= Zdigits2 M) by lia.
    apply (F64Facts.Zdigits2_ge M (Zdigits2 (Zpos m) - 1 + 52)); [unfold M; lia| |lia].
    rewrite Z.pow_add_r by lia; unfold M.
    apply Z.mul_le_mono_nonneg; [apply Z.pow_nonneg; lia|lia|lia|vm_compute; discriminate]. }
  assert (Hpre : e + -52 <= fexp prec emax (Zdigits2 M + (e + -52)))
    by (rewrite !F64Facts.fexp_eq in *; lia).
  destruct (F64Facts.bra_cases false M (e + -52) loc_Exact _ _ ltac:(unfold M; lia) Hpre
              eq_refl eq_refl) as (Hq & Hq52 & Hemin & m1 & Hm1q & ->).
  set (e1 := fexp prec emax (Zdigits2 M + (e + -52))) in *.
  set (q := M / 2 ^ (e1 - (e + -52))) in *.
  assert (He1 : e <= e1) by (unfold e1; rewrite !F64Facts.fexp_eq in *; lia).
  assert (Hpos : 0 < m1 /\ (e1 = e -> Zpos m <= m1)).
  { destruct (Z.eq_dec e1 e) as [E|E].
    - assert (Zpos m <= q).
      { unfold q; rewrite E; replace (e - (e + -52)) with 52 by lia.
        apply Z.div_le_lower_bound; [lia|]; unfold M.
        rewrite (Z.mul_comm (2 ^ 52)); apply Z.mul_le_mono_nonneg_l;
          [lia|vm_compute; discriminate]. }
      lia.
    - rewrite !F64Facts.fexp_eq in *; split; [|lia].
      assert (-1074 < e1) by lia.
      specialize (Hq52 ltac:(lia)); lia. }
  destruct m1 as [|p|p]; [lia| |lia].
  destruct (Z.ltb_spec (Zpos p) (2 ^ 53)).
  - destruct (Z.leb_spec e1 971); [|reflexivity].
    destruct (Z.eq_dec e1 e) as [E|E].
    + rewrite E; apply le_finite_mant; apply Hpos; exact E.
    + apply le_finite_exp; lia.
  - destruct (Z.leb_spec (e1 + 1) 971); [|reflexivity].
    apply le_finite_exp; lia.
Qed.

Lemma abs_mul_increase : forall v, valid v = true -> is_nan v = false ->
  le (abs v) (abs (mul v VELOCITY_INCREASE)) = true.
Proof.
  intros v Hv Hn; rewrite VELOCITY_INCREASE_eq.
  destruct v as [[]|[]| |s m e]; try reflexivity; try discriminate.
  unfold mul, SFmul; rewrite abs_bra.
  change (abs (S754_finite s m e)) with (S754_finite false m e).
  apply F64Facts.valid_finite in Hv as [Hv _].
  apply mul_increase_ge; exact Hv.
Qed.

Lemma wall_vy_cases : forall H dt b,
  vy (bvelocity (Ball.update_if_collision_with_wall H dt b)) = vy (bvelocity b) \/
  vy (bvelocity (Ball.update_if_collision_with_wall H dt b)) = neg (vy (bvelocity b)).
Proof.
  intros; unfold Ball.update_if_collision_with_wall; destruct (_ || _); [right|left];
    reflexivity.
Qed.

Lemma paddle_check_vx : forall p1 p2 dt b b',
  (if le (vx (bvelocity b)) zero
   then Ball.update_if_collision_with_player1 p1 dt b
   else Ball.update_if_collision_with_player2 p2 dt b) = Some b' ->
  vx (bvelocity b') = vx (bvelocity b) \/ vx (bvelocity b') = neg (vx (bvelocity b)).
Proof.
  intros p1 p2 dt b b' Hb.
  destruct (le _ _);
    [unfold Ball.update_if_collision_with_player1 in Hb
    |unfold Ball.update_if_collision_with_player2 in Hb];
    (destruct (le _ _); [|injection Hb as <-; auto]);
    destruct (Player.collides_with _ _) as [[]|]; try discriminate;
    injection Hb as <-; auto.
Qed.

Lemma abs_mul_increase_signed : forall v w,
  (w = v \/ w = neg v) -> valid v = true -> is_nan v = false ->
  le (abs v) (abs (mul w VELOCITY_INCREASE)) = true.
Proof.
  intros v w [->| ->] Hv Hn; [apply abs_mul_increase; assumption|].
  rewrite <- (abs_neg v); apply abs_mul_increase;
    [apply F64Facts.neg_valid; exact Hv|destruct v; exact Hn].
Qed.

(** C4 (amended).  A [Ball::update_position] that does not panic ends by
    multiplying each velocity component, after its possible sign flip, by
    the [f64] constant [VELOCITY_INCREASE] (the double nearest [1.003]),
    with one rounding: the new [vx] is [vx * c] or [(-vx) * c] and the new
    [vy] is [vy * c] or [(-vy) * c].  The magnitude of each component never
    decreases in the call (for a non-NaN component).  This is a property of
    one [Ball::update_position]; a [GameState::update] that scores or resets
    installs a fresh random velocity, which can be slower. *)
Theorem ball_velocity_escalation : forall H p1 p2 dt b b',
  Ball.update_position H p1 p2 dt b = Some b' ->
  (vx (bvelocity b') = mul (vx (bvelocity b)) VELOCITY_INCREASE \/
   vx (bvelocity b') = mul (neg (vx (bvelocity b))) VELOCITY_INCREASE) /\
  (vy (bvelocity b') = mul (vy (bvelocity b)) VELOCITY_INCREASE \/
   vy (bvelocity b') = mul (neg (vy (bvelocity b))) VELOCITY_INCREASE) /\
  (valid (vx (bvelocity b)) = true -> is_nan (vx (bvelocity b)) = false ->
   le (abs (vx (bvelocity b))) (abs (vx (bvelocity b'))) = true) /\
  (valid (vy (bvelocity b)) = true -> is_nan (vy (bvelocity b)) = false ->
   le (abs (vy (bvelocity b))) (abs (vy (bvelocity b'))) = true).
Proof.
  intros H p1 p2 dt b b' Hb; unfold Ball.update_position in Hb; cbv zeta in Hb.
  set (b1 := Ball.update_if_collision_with_wall H dt b) in Hb.
  destruct (if le (vx (bvelocity b1)) zero
            then Ball.update_if_collision_with_player1 p1 dt b1
            else Ball.update_if_collision_with_player2 p2 dt b1) as [b2|] eqn:E;
    [|discriminate].
  injection Hb as <-.
  pose proof (paddle_check_vx _ _ _ _ _ E) as Hx.
  pose proof (proj2 (paddle_check_vy _ _ _ _ _ E)) as Hy.
  pose proof (wall_vx H dt b) as Hx1; pose proof (wall_vy_cases H dt b) as Hy1.
  fold b1 in Hx1, Hy1.
  assert (Hx' : vx (bvelocity b2) = vx (bvelocity b) \/
                vx (bvelocity b2) = neg (vx (bvelocity b))) by (rewrite <- Hx1; exact Hx).
  assert (Hy' : vy (bvelocity b2) = vy (bvelocity b) \/
                vy (bvelocity b2) = neg (vy (bvelocity b))) by (rewrite Hy; exact Hy1).
  unfold Ball.integrate; cbn [bvelocity vx vy].
  split; [destruct Hx' as [-> | ->]; auto|].
  split; [destruct Hy' as [-> | ->]; auto|].
  split; intros Hv Hn; apply abs_mul_increase_signed; assumption.
Qed.

Lemma ball_velocity_escalation_witness :
  let g := test_game 60 18 1 1 in
  match Ball.update_position (of_Z 18) (player1 g) (player2 g) tick (ball g) with
  | Some b' => le (abs (vx (bvelocity (ball g)))) (abs (vx (bvelocity b'))) = true
  | None => False
  end.
Proof.
  cbv zeta.
  destruct (Ball.update_position (of_Z 18) (player1 (test_game 60 18 1 1))
              (player2 (test_game 60 18 1 1)) tick (ball (test_game 60 18 1 1))) as [b'|] eqn:E.
  - apply (proj1 (proj2 (proj2 (ball_velocity_escalation _ _ _ _ _ _ E))));
      vm_compute; reflexivity.
  - vm_compute in E; discriminate.
Defined.

(** ** The IEEE order as a lexicographic order *)

Lemma le_key : forall a b, is_nan a = false -> is_nan b = false ->
  (le a b = true <-> key_le (order_key a) (order_key b)).
Proof.
  intros [[]|[]| |[] ma ea] [[]|[]| |[] mb eb] Ha Hb; try discriminate;
    unfold le, SFleb, SFcompare; cbn [order_key key_le];
    try (destruct (Z.compare_spec ea eb);
         change (Pos.compare_cont Eq ma mb) with (Pos.compare ma mb);
         destruct (Pos.compare_spec ma mb));
    cbn [CompOpp]; split; intro Hc; try lia; try discriminate; try reflexivity;
    exfalso; lia.
Qed.

Lemma lt_key : forall a b, is_nan a = false -> is_nan b = false ->
  (lt a b = true <-> key_lt (order_key a) (order_key b)).
Proof.
  intros [[]|[]| |[] ma ea] [[]|[]| |[] mb eb] Ha Hb; try discriminate;
    unfold lt, SFltb, SFcompare; cbn [order_key key_lt];
    try (destruct (Z.compare_spec ea eb);
         change (Pos.compare_cont Eq ma mb) with (Pos.compare ma mb);
         destruct (Pos.compare_spec ma mb));
    cbn [CompOpp]; split; intro Hc; try lia; try discriminate; try reflexivity;
    exfalso; lia.
Qed.

Lemma lt_not_nan : forall a b, lt a b = true -> is_nan a = false /\ is_nan b = false.
Proof. intros [| | |] [| | |] H; try discriminate; split; reflexivity. Qed.

Ltac key_unfold :=
  repeat match goal with
  | H : le ?a ?b = true |- _ =>
      let Ha := fresh in let Hb := fresh in
      destruct (le_not_nan _ _ H) as [Ha Hb];
      apply (proj1 (le_key a b Ha Hb)) in H
  | H : lt ?a ?b = true |- _ =>
      let Ha := fresh in let Hb := fresh in
      destruct (lt_not_nan _ _ H) as [Ha Hb];
      apply (proj1 (lt_key a b Ha Hb)) in H
  end.

Lemma le_trans : forall a b c, le a b = true -> le b c = true -> le a c = true.
Proof.
  intros a b c H1 H2.
  pose proof (proj1 (le_not_nan _ _ H1)); pose proof (proj2 (le_not_nan _ _ H2)).
  apply le_key; [assumption|assumption|]; key_unfold.
  destruct (order_key a) as [[a1 a2] a3], (order_key b) as [[b1 b2] b3],
    (order_key c) as [[c1 c2] c3]; cbn in *; lia.
Qed.

Lemma lt_le_trans : forall a b c, lt a b = true -> le b c = true -> lt a c = true.
Proof.
  intros a b c H1 H2.
  pose proof (proj1 (lt_not_nan _ _ H1)); pose proof (proj2 (le_not_nan _ _ H2)).
  apply lt_key; [assumption|assumption|]; key_unfold.
  destruct (order_key a) as [[a1 a2] a3], (order_key b) as [[b1 b2] b3],
    (order_key c) as [[c1 c2] c3]; cbn in *; lia.
Qed.

Lemma le_lt_trans : forall a b c, le a b = true -> lt b c = true -> lt a c = true.
Proof.
  intros a b c H1 H2.
  pose proof (proj1 (le_not_nan _ _ H1)); pose proof (proj2 (lt_not_nan _ _ H2)).
  apply lt_key; [assumption|assumption|]; key_unfold.
  destruct (order_key a) as [[a1 a2] a3], (order_key b) as [[b1 b2] b3],
    (order_key c) as [[c1 c2] c3]; cbn in *; lia.
Qed.

Lemma le_or_lt : forall a b, is_nan a = false -> is_nan b = false ->
  le a b = true \/ lt b a = true.
Proof.
  intros a b Ha Hb; destruct (lt b a) eqn:E; [right; reflexivity|].
  left; apply not_lt_le; assumption.
Qed.

Lemma max_min_empty : forall a lo hi, lt hi lo = true -> max (min a hi) lo = lo.
Proof.
  intros a lo hi H; destruct (lt_not_nan _ _ H) as [Hhi Hlo].
  assert (Hm : lt (min a hi) lo = true).
  { apply (le_lt_trans _ hi); [apply min_le_r; exact Hhi|exact H]. }
  destruct (lt_not_nan _ _ Hm) as [Hmn _].
  unfold max at 1; rewrite Hmn, Hlo, Hm; reflexivity.
Qed.

(** C3 (amended).  After [Player::update_position(max_height, keys, dt)]
    the paddle's [y] is at least [0.0 + extend_down as f64], for every
    paddle, key set, duration and start position; it is at most
    [max_height - extend_up as f64] whenever that upper bound is not below
    the lower one.  When the interval is empty the final [.max] wins and [y]
    is the lower bound, above [max_height - extend_up]. *)
Theorem paddle_y_clamped : forall H keys dt p,
  let y' := y (position (Player.update_position H keys dt p)) in
  let lo := add zero (of_Z (extend_down p)) in
  let hi := sub H (of_Z (extend_up p)) in
  le lo y' = true /\ (le lo hi = true -> le y' hi = true) /\ (lt hi lo = true -> y' = lo).
Proof.
  intros H keys dt p; cbv zeta; unfold Player.update_position; cbv zeta.
  cbn [Player.with_position position y].
  split; [|split].
  - apply max_ge_r; rewrite add_zero_nan; apply of_Z_not_nan.
  - apply max_min_le.
  - apply max_min_empty.
Qed.

Lemma paddle_y_clamped_witness :
  let p := player1 (test_game 60 18 1 1) in
  le (add zero (of_Z (extend_down p))) (sub (of_Z 18) (of_Z (extend_up p))) = true /\
  le (y (position (Player.update_position (of_Z 18) [Char "w"%char] tick p)))
     (sub (of_Z 18) (of_Z (extend_up p))) = true /\
  let q := player1 (test_game 60 2 2 2) in
  lt (sub (of_Z 2) (of_Z (extend_up q))) (add zero (of_Z (extend_down q))) = true /\
  y (position (Player.update_position (of_Z 2) [Char "w"%char] tick q)) =
  add zero (of_Z (extend_down q)).
Proof.
  cbv zeta.
  assert (He : lt (sub (of_Z 2) (of_Z (extend_up (player1 (test_game 60 2 2 2)))))
                  (add zero (of_Z (extend_down (player1 (test_game 60 2 2 2))))) = true)
    by (vm_compute; reflexivity).
  assert (Hlh : le (add zero (of_Z (extend_down (player1 (test_game 60 18 1 1)))))
                   (sub (of_Z 18) (of_Z (extend_up (player1 (test_game 60 18 1 1)))))
                = true) by (vm_compute; reflexivity).
  split; [exact Hlh|]; split.
  - exact (proj1 (proj2 (paddle_y_clamped (of_Z 18) [Char "w"%char] tick
      (player1 (test_game 60 18 1 1)))) Hlh).
  - split; [exact He|].
    exact (proj2 (proj2 (paddle_y_clamped (of_Z 2) [Char "w"%char] tick
      (player1 (test_game 60 2 2 2)))) He).
Defined.

(** ** Exact rounding steps: a mantissa with trailing zeros loses no bits *)

Lemma shr_1_even : forall j, 0 <= j ->
  shr_1 (Build_shr_record (2 * j) false false) = Build_shr_record j false false.
Proof. intros [|q|q] H; [reflexivity|reflexivity|lia]. Qed.

Lemma iter_shr_exact : forall p k, 0 <= k ->
  iter_pos shr_1 p (Build_shr_record (k * 2 ^ Zpos p) false false)
  = Build_shr_record k false false.
Proof.
  induction p as [p IH|p IH|]; intros k Hk; cbn [iter_pos].
  - assert (Hp : 0 <= 2 ^ Zpos p) by (apply Z.pow_nonneg; lia).
    replace (k * 2 ^ Zpos p~1) with (2 * (k * 2 ^ Zpos p * 2 ^ Zpos p))
      by (rewrite (Pos2Z.inj_xI p);
          replace (2 * Zpos p + 1) with (Zpos p + Zpos p + 1) by lia;
          rewrite !Z.pow_add_r by lia; ring).
    rewrite shr_1_even by nia.
    rewrite IH by nia; apply IH; exact Hk.
  - assert (Hp : 0 <= 2 ^ Zpos p) by (apply Z.pow_nonneg; lia).
    replace (k * 2 ^ Zpos p~0) with (k * 2 ^ Zpos p * 2 ^ Zpos p)
      by (rewrite (Pos2Z.inj_xO p);
          replace (2 * Zpos p) with (Zpos p + Zpos p) by lia;
          rewrite !Z.pow_add_r by lia; ring).
    rewrite IH by nia; apply IH; exact Hk.
  - change (2 ^ Zpos 1) with 2; rewrite Z.mul_comm; apply shr_1_even; exact Hk.
Qed.

Lemma shr_fexp_canonical : forall q e1, 0 <= q < 2 ^ 53 -> -1074 <= e1 ->
  (-1074 < e1 -> 2 ^ 52 <= q) -> fexp prec emax (Zdigits2 q + e1) - e1 <= 0.
Proof.
  intros q e1 Hq He Hn; rewrite F64Facts.fexp_eq.
  destruct (Z.eq_dec q 0) as [->|Hq0]; [simpl; lia|].
  pose proof (F64Facts.Zdigits2_le q 53 ltac:(lia) ltac:(lia) ltac:(lia)).
  destruct (Z.eq_dec e1 (-1074)) as [->|He1]; [lia|].
  pose proof (F64Facts.Zdigits2_ge q 52 ltac:(lia) ltac:(lia) ltac:(lia)); lia.
Qed.

(** Rounding a mantissa [q * 2^k] that is exact at the canonical exponent
    keeps [q]. *)
Lemma bra_exact_div : forall s M e0 q, 0 <= q ->
  e0 <= fexp prec emax (Zdigits2 M + e0) ->
  M = q * 2 ^ (fexp prec emax (Zdigits2 M + e0) - e0) ->
  binary_round_aux prec emax s M e0 loc_Exact =
    match q with
    | Zpos m => if fexp prec emax (Zdigits2 M + e0) <=? 971
                then S754_finite s m (fexp prec emax (Zdigits2 M + e0))
                else S754_infinity s
    | _ => S754_zero s
    end.
Proof.
  intros s M e0 q Hq He0 HM.
  assert (HM0 : 0 <= M) by (rewrite HM; pose proof (Z.pow_nonneg 2
    (fexp prec emax (Zdigits2 M + e0) - e0) ltac:(lia)); nia).
  destruct (F64Facts.bra_cases s M e0 loc_Exact _ _ HM0 He0 eq_refl eq_refl)
    as (Hq53 & Hq52 & Hemin & _).
  assert (Hdiv : M / 2 ^ (fexp prec emax (Zdigits2 M + e0) - e0) = q).
  { rewrite HM at 1; apply Z.div_mul; apply Z.pow_nonzero; lia. }
  rewrite Hdiv in Hq53, Hq52.
  pose proof (shr_fexp_canonical q _ Hq53 Hemin Hq52) as Hc.
  unfold binary_round_aux, shr_fexp at 1, shr.
  destruct (fexp prec emax (Zdigits2 M + e0) - e0) as [|p|p] eqn:E.
  - rewrite Z.mul_1_r in HM; subst M.
    cbn [shr_record_of_loc shr_m loc_of_shr_record round_nearest_even].
    assert (Ee : fexp prec emax (Zdigits2 q + e0) = e0) by lia.
    rewrite Ee, shr_fexp_noshift by lia.
    cbn [shr_record_of_loc shr_m]; change (emax - prec) with 971.
    destruct q; [reflexivity|reflexivity|lia].
  - cbn [shr_record_of_loc].
    assert (Hi : iter_pos shr_1 p (Build_shr_record M false false)
                 = Build_shr_record q false false)
      by (rewrite HM; apply iter_shr_exact; exact Hq).
    rewrite Hi.
    cbn [shr_m loc_of_shr_record round_nearest_even].
    change IntDef.Z.add with Z.add.
    replace (e0 + Zpos p) with (fexp prec emax (Zdigits2 M + e0)) by lia.
    rewrite shr_fexp_noshift by exact Hc.
    cbn [shr_record_of_loc shr_m]; change (emax - prec) with 971.
    destruct q; [reflexivity|reflexivity|lia].
  - lia.
Qed.

Lemma binary_round_rel : forall s m e, exists M e0,
  0 <= M /\ e0 <= e /\ M = Zpos m * 2 ^ (e - e0) /\
  e0 <= fexp prec emax (Zdigits2 M + e0) /\
  binary_round prec emax s m e = binary_round_aux prec emax s M e0 loc_Exact.
Proof.
  intros s m e; unfold binary_round, shl_align.
  change (Zpos (digits2_pos m)) with (Zdigits2 (Zpos m)).
  destruct (fexp prec emax (Zdigits2 (Zpos m) + e) - e) as [|d|d] eqn:E.
  - exists (Zpos m), e; rewrite Z.sub_diag, Z.mul_1_r; repeat split; lia.
  - exists (Zpos m), e; rewrite Z.sub_diag, Z.mul_1_r; repeat split; lia.
  - exists (Zpos (Pos.iter xO m d)), (fexp prec emax (Zdigits2 (Zpos m) + e)).
    rewrite F64Facts.iter_xO.
    replace (e - fexp prec emax (Zdigits2 (Zpos m) + e)) with (Zpos d) by lia.
    repeat split; [lia|lia|].
    rewrite F64Facts.Zdigits2_shift by lia.
    rewrite !F64Facts.fexp_eq in *; lia.
Qed.

(** Rounding a value at least a representable [m * 2^e] gives at least it. *)
Lemma bra_ge : forall M e0 m e l, fexp prec emax (Zdigits2 (Zpos m) + e) = e ->
  0 <= M -> e0 <= fexp prec emax (Zdigits2 M + e0) -> e0 <= e ->
  Zpos m * 2 ^ (e - e0) <= M ->
  le (S754_finite false m e) (binary_round_aux prec emax false M e0 l) = true.
Proof.
  intros M e0 m e l Hv HM0 Hpre He0 HM.
  pose proof (F64Facts.Zdigits2_bounds (Zpos m) ltac:(lia)) as [Hm1 Hm2].
  pose proof (F64Facts.Zdigits2_pos_ge1 (Zpos m) ltac:(lia)) as HD1.
  assert (Hk : 0 < 2 ^ (e - e0)) by (apply Z.pow_pos_nonneg; lia).
  assert (HdM : Zdigits2 (Zpos m) + (e - e0) <= Zdigits2 M).
  { enough (Zdigits2 (Zpos m) - 1 + (e - e0) + 1 <= Zdigits2 M) by lia.
    apply (F64Facts.Zdigits2_ge M); [nia| |lia].
    rewrite Z.pow_add_r by lia; apply (Z.le_trans _ (Zpos m * 2 ^ (e - e0))); [|exact HM].
    apply Z.mul_le_mono_nonneg_r; lia. }
  destruct (F64Facts.bra_cases false M e0 l _ _ HM0 Hpre eq_refl eq_refl)
    as (Hq & Hq52 & Hemin & m1 & Hm1q & ->).
  set (e1 := fexp prec emax (Zdigits2 M + e0)) in *.
  set (q := M / 2 ^ (e1 - e0)) in *.
  assert (He1 : e <= e1) by (unfold e1; rewrite !F64Facts.fexp_eq in *; lia).
  assert (Hpos : 0 < m1 /\ (e1 = e -> Zpos m <= m1)).
  { destruct (Z.eq_dec e1 e) as [E|E].
    - assert (Zpos m <= q).
      { unfold q; rewrite E.
        apply Z.div_le_lower_bound; [exact Hk|]; rewrite Z.mul_comm; exact HM. }
      lia.
    - rewrite !F64Facts.fexp_eq in *; split; [|lia].
      specialize (Hq52 ltac:(lia)); lia. }
  destruct m1 as [|p|p]; [lia| |lia].
  destruct (Z.ltb_spec (Zpos p) (2 ^ 53)).
  - destruct (Z.leb_spec e1 971); [|reflexivity].
    destruct (Z.eq_dec e1 e) as [E|E].
    + rewrite E; apply le_finite_mant; apply Hpos; exact E.
    + apply le_finite_exp; lia.
  - destruct (Z.leb_spec (e1 + 1) 971); [|reflexivity].
    apply le_finite_exp; lia.
Qed.

(** Rounding (from an exact mantissa) a value at most a representable
    [m * 2^e] gives at most it. *)
Lemma bra_le : forall M e0 m e, fexp prec emax (Zdigits2 (Zpos m) + e) = e -> e <= 971 ->
  0 <= M -> e0 <= fexp prec emax (Zdigits2 M + e0) -> e0 <= e ->
  M <= Zpos m * 2 ^ (e - e0) ->
  le (binary_round_aux prec emax false M e0 loc_Exact) (S754_finite false m e) = true.
Proof.
  intros M e0 m e Hv Hv2 HM0 Hpre He0 HM.
  pose proof (F64Facts.Zdigits2_bounds (Zpos m) ltac:(lia)) as [Hm1 Hm2].
  pose proof (F64Facts.Zdigits2_pos_ge1 (Zpos m) ltac:(lia)) as HD1.
  assert (Hm53 : Zpos m < 2 ^ 53).
  { assert (Zdigits2 (Zpos m) <= 53) by (rewrite F64Facts.fexp_eq in Hv; lia).
    apply (Z.lt_le_trans _ _ _ Hm2); apply Z.pow_le_mono_r; lia. }
  assert (Hk : 0 < 2 ^ (e - e0)) by (apply Z.pow_pos_nonneg; lia).
  destruct (Z.eq_dec M 0) as [->|HMz].
  { rewrite (bra_exact_div false 0 e0 0); [reflexivity|lia|exact Hpre|reflexivity]. }
  assert (HdM : Zdigits2 M <= Zdigits2 (Zpos m) + (e - e0)).
  { apply F64Facts.Zdigits2_le; [lia| |lia].
    rewrite Z.pow_add_r by lia.
    apply (Z.le_lt_trans _ (Zpos m * 2 ^ (e - e0))); [exact HM|].
    apply Z.mul_lt_mono_pos_r; lia. }
  set (e1 := fexp prec emax (Zdigits2 M + e0)) in *.
  assert (He1 : e1 <= e) by (unfold e1; rewrite !F64Facts.fexp_eq in *; lia).
  assert (Hk1 : 0 < 2 ^ (e1 - e0)) by (apply Z.pow_pos_nonneg; lia).
  destruct (Z.eq_dec M (M / 2 ^ (e1 - e0) * 2 ^ (e1 - e0))) as [Hx|Hx].
  - assert (Hq0 : 0 <= M / 2 ^ (e1 - e0)) by (apply Z.div_pos; lia).
    rewrite (bra_exact_div false M e0 (M / 2 ^ (e1 - e0)) Hq0 Hpre Hx).
    fold e1.
    destruct (M / 2 ^ (e1 - e0)) as [|p|p] eqn:Eq; [reflexivity| |lia].
    destruct (Z.leb_spec e1 971); [|lia].
    destruct (Z.eq_dec e1 e) as [E|E].
    + rewrite E; apply le_finite_mant.
      rewrite E in Hx; rewrite Hx in HM.
      apply (Z.mul_le_mono_pos_r _ _ (2 ^ (e - e0)) Hk); exact HM.
    + apply le_finite_exp; lia.
  - destruct (F64Facts.bra_cases false M e0 loc_Exact _ _ HM0 Hpre eq_refl eq_refl)
      as (Hq & Hq52 & Hemin & m1 & Hm1q & ->).
    fold e1 in Hq, Hq52, Hemin, Hm1q |- *.
    destruct (Z.eq_dec e1 e) as [E|E].
    + assert (Hlt : M / 2 ^ (e1 - e0) < Zpos m).
      { assert (M / 2 ^ (e1 - e0) <= Zpos m).
        { apply Z.div_le_upper_bound; [exact Hk1|]; rewrite E; lia. }
        destruct (Z.eq_dec (M / 2 ^ (e1 - e0)) (Zpos m)) as [Eq|]; [|lia].
        exfalso; apply Hx; rewrite Eq; rewrite E in Eq |- *.
        pose proof (Z.mul_div_le M (2 ^ (e - e0)) Hk); lia. }
      destruct m1 as [|p|p]; [reflexivity| |lia].
      destruct (Z.ltb_spec (Zpos p) (2 ^ 53)); [|lia].
      destruct (Z.leb_spec e1 971); [|lia].
      rewrite E; apply le_finite_mant; lia.
    + assert (Hm52 : 2 ^ 52 <= Zpos m).
      { rewrite F64Facts.fexp_eq in Hv.
        assert (Zdigits2 (Zpos m) = 53) as Hd by lia.
        rewrite Hd in Hm1; exact Hm1. }
      destruct m1 as [|p|p]; [reflexivity| |lia].
      destruct (Z.ltb_spec (Zpos p) (2 ^ 53)).
      * destruct (Z.leb_spec e1 971); [|lia].
        apply le_finite_exp; lia.
      * destruct (Z.leb_spec (e1 + 1) 971); [|lia].
        destruct (Z.eq_dec (e1 + 1) e) as [E1|E1].
        -- rewrite E1; apply le_finite_mant; exact Hm52.
        -- apply le_finite_exp; lia.
Qed.

(** ** Adding a non-negative (non-positive) step moves no lower (higher) *)

Lemma shl_align_fst : forall mx ex ez, ez <= ex ->
  Zpos (fst (shl_align mx ex ez)) = Zpos mx * 2 ^ (ex - ez).
Proof.
  intros mx ex ez H; unfold shl_align.
  destruct (ez - ex) as [|d|d] eqn:E; cbn [fst].
  - replace (ex - ez) with 0 by lia; lia.
  - lia.
  - rewrite F64Facts.iter_xO; f_equal; f_equal; lia.
Qed.

Lemma bra_neg_le : forall M e0 l m e, 0 <= M -> e0 <= fexp prec emax (Zdigits2 M + e0) ->
  le (binary_round_aux prec emax true M e0 l) (S754_finite false m e) = true.
Proof.
  intros M e0 l m e HM Hpre.
  destruct (F64Facts.bra_cases true M e0 l _ _ HM Hpre eq_refl eq_refl)
    as (_ & _ & _ & m1 & _ & ->).
  destruct m1; try reflexivity; destruct (_ <? _), (_ <=? _); reflexivity.
Qed.

Lemma add_ge : forall x d, valid x = true -> le zero x = true -> le zero d = true ->
  le x (add x d) = true.
Proof.
  intros [[]|[]| |[] mx ex] [[]|[]| |[] my ey] Hx Hx0 Hd0; try discriminate;
    try reflexivity.
  - apply le_finite_mant; lia.
  - apply le_finite_mant; lia.
  - apply F64Facts.valid_finite in Hx as [Hv _].
    unfold add, SFadd.
    change IntDef.Z.min with Z.min.
    change (cond_Zopp false (Zpos ?a)) with (Zpos a).
    set (a := fst (shl_align mx ex (Z.min ex ey))).
    set (b := fst (shl_align my ey (Z.min ex ey))).
    change IntDef.Z.add with Z.add.
    change (Zpos a + Zpos b) with (Zpos (a + b)).
    cbn [binary_normalize].
    destruct (binary_round_rel false (a + b) (Z.min ex ey))
      as (M & e0 & HM & He0 & HMe & Hpre & ->).
    apply bra_ge; [exact Hv|exact HM|exact Hpre|lia|].
    rewrite HMe, Pos2Z.inj_add.
    assert (Ha : Zpos a = Zpos mx * 2 ^ (ex - Z.min ex ey)) by (apply shl_align_fst; lia).
    replace (ex - e0) with ((ex - Z.min ex ey) + (Z.min ex ey - e0)) by lia.
    rewrite Z.pow_add_r by lia; rewrite Z.mul_assoc, <- Ha.
    pose proof (Z.pow_pos_nonneg 2 (Z.min ex ey - e0) ltac:(lia)); nia.
Qed.

Lemma add_le : forall x d, valid x = true -> le zero x = true ->
  lt x (S754_infinity false) = true -> le d zero = true ->
  le (add x d) x = true.
Proof.
  intros [[]|[]| |[] mx ex] [[]|[]| |[] my ey] Hx Hx0 Hxi Hd0; try discriminate;
    try reflexivity.
  - apply le_finite_mant; lia.
  - apply le_finite_mant; lia.
  - apply F64Facts.valid_finite in Hx as [Hv Hv2].
    unfold add, SFadd.
    change IntDef.Z.min with Z.min.
    change (cond_Zopp false (Zpos ?a)) with (Zpos a).
    change (cond_Zopp true (Zpos ?a)) with (Zneg a).
    set (a := fst (shl_align mx ex (Z.min ex ey))).
    set (b := fst (shl_align my ey (Z.min ex ey))).
    assert (Ha : Zpos a = Zpos mx * 2 ^ (ex - Z.min ex ey)) by (apply shl_align_fst; lia).
    change IntDef.Z.add with Z.add.
    destruct (Zpos a + Zneg b) as [|P|P] eqn:ES; cbn [binary_normalize]; [reflexivity| |].
    + destruct (binary_round_rel false P (Z.min ex ey))
        as (M & e0 & HM & He0 & HMe & Hpre & ->).
      apply bra_le; [exact Hv|exact Hv2|exact HM|exact Hpre|lia|].
      rewrite HMe.
      replace (ex - e0) with ((ex - Z.min ex ey) + (Z.min ex ey - e0)) by lia.
      rewrite Z.pow_add_r by lia; rewrite Z.mul_assoc, <- Ha.
      pose proof (Z.pow_pos_nonneg 2 (Z.min ex ey - e0) ltac:(lia)); nia.
    + destruct (binary_round_rel true P (Z.min ex ey))
        as (M & e0 & HM & He0 & HMe & Hpre & ->).
      apply bra_neg_le; assumption.
Qed.

(** ** Signs of products by a positive finite factor *)

Lemma bra_pos_ge0 : forall M e0 l, 0 <= M -> e0 <= fexp prec emax (Zdigits2 M + e0) ->
  le zero (binary_round_aux prec emax false M e0 l) = true.
Proof.
  intros M e0 l HM Hpre.
  destruct (F64Facts.bra_cases false M e0 l _ _ HM Hpre eq_refl eq_refl)
    as (_ & _ & _ & m1 & _ & ->).
  destruct m1; try reflexivity; destruct (_ <? _), (_ <=? _); reflexivity.
Qed.

Lemma bra_neg_le0 : forall M e0 l, 0 <= M -> e0 <= fexp prec emax (Zdigits2 M + e0) ->
  le (binary_round_aux prec emax true M e0 l) zero = true.
Proof.
  intros M e0 l HM Hpre.
  destruct (F64Facts.bra_cases true M e0 l _ _ HM Hpre eq_refl eq_refl)
    as (_ & _ & _ & m1 & _ & ->).
  destruct m1; try reflexivity; destruct (_ <? _), (_ <=? _); reflexivity.
Qed.

Lemma mul_pre : forall sx mx ex sy my ey,
  valid (S754_finite sx mx ex) = true -> valid (S754_finite sy my ey) = true ->
  ex + ey <= fexp prec emax (Zdigits2 (Zpos (mx * my)) + (ex + ey)).
Proof.
  intros sx mx ex sy my ey Hx Hy.
  apply F64Facts.valid_finite in Hx as [Hx1 Hx2]; apply F64Facts.valid_finite in Hy as [Hy1 Hy2].
  rewrite Pos2Z.inj_mul.
  pose proof (F64Facts.Zdigits2_mul (Zpos mx) (Zpos my) ltac:(lia) ltac:(lia)).
  pose proof (F64Facts.Zdigits2_pos_ge1 (Zpos mx) ltac:(lia)).
  pose proof (F64Facts.Zdigits2_pos_ge1 (Zpos my) ltac:(lia)).
  rewrite !F64Facts.fexp_eq in *; lia.
Qed.

Lemma mul_pos_nonneg : forall v mf ef, valid v = true -> valid (S754_finite false mf ef) = true ->
  le zero v = true -> le zero (mul v (S754_finite false mf ef)) = true.
Proof.
  intros [[]|[]| |[] m e] mf ef Hv Hf H; try discriminate; try reflexivity.
  unfold mul, SFmul; cbn [xorb]; change IntDef.Z.add with Z.add.
  apply bra_pos_ge0; [lia|exact (mul_pre _ _ _ _ _ _ Hv Hf)].
Qed.

Lemma mul_pos_nonpos : forall v mf ef, valid v = true -> valid (S754_finite false mf ef) = true ->
  le v zero = true -> le (mul v (S754_finite false mf ef)) zero = true.
Proof.
  intros [[]|[]| |[] m e] mf ef Hv Hf H; try discriminate; try reflexivity.
  unfold mul, SFmul; cbn [xorb]; change IntDef.Z.add with Z.add.
  apply bra_neg_le0; [lia|exact (mul_pre _ _ _ _ _ _ Hv Hf)].
Qed.

Lemma mul_pos_not_nan : forall v mf ef, valid v = true ->
  valid (S754_finite false mf ef) = true -> is_nan v = false ->
  is_nan (mul v (S754_finite false mf ef)) = false.
Proof.
  intros [[]|[]| |s m e] mf ef Hv Hf H; try discriminate; try reflexivity.
  unfold mul, SFmul; change IntDef.Z.add with Z.add.
  apply bra_not_nan; [lia|exact (mul_pre _ _ _ _ _ _ Hv Hf)].
Qed.

Lemma binary_normalize_not_nan : forall m e sz,
  is_nan (binary_normalize prec emax m e sz) = false.
Proof.
  intros [|p|p] e sz; [reflexivity| |]; unfold binary_normalize;
    match goal with |- is_nan (binary_round _ _ ?s ?m ?e) = false =>
      destruct (binary_round_pre s m e) as (M & e0 & HM & He & ->) end;
    apply bra_not_nan; assumption.
Qed.

Lemma add_not_nan : forall x d, is_nan d = false -> le zero x = true ->
  lt x (S754_infinity false) = true ->
  is_nan (add x d) = false.
Proof.
  intros [[]|[]| |[] mx ex] [[]|[]| |sd md ed] Hd Hx Hi; try discriminate;
    try reflexivity.
  unfold add, SFadd; apply binary_normalize_not_nan.
Qed.

Lemma VELOCITY_INCREASE_valid : valid VELOCITY_INCREASE = true.
Proof. vm_compute; reflexivity. Qed.

Lemma mul_increase_pos : forall v, valid v = true -> lt zero v = true ->
  lt zero (mul v VELOCITY_INCREASE) = true.
Proof.
  intros [[]|[]| |[] m e] Hv H; try discriminate; try reflexivity.
  apply F64Facts.valid_finite in Hv as [Hv _].
  apply (lt_le_trans _ (S754_finite false m e)); [reflexivity|].
  rewrite VELOCITY_INCREASE_eq; unfold mul, SFmul; cbn [xorb].
  change IntDef.Z.add with Z.add.
  apply mul_increase_ge; exact Hv.
Qed.

(** One integration step of the ball's [x] followed by the score check: if
    neither scoring branch fires, [x] stays within [[0, W]]. *)
Lemma ball_x_step : forall x v t W,
  valid x = true -> valid v = true -> is_nan v = false ->
  valid t = true -> lt zero t = true -> lt t (S754_infinity false) = true ->
  le zero x = true -> le x W = true -> lt W (S754_infinity false) = true ->
  (le (mul v VELOCITY_INCREASE) zero && lt (add x (mul v t)) zero) = false ->
  (lt zero (mul v VELOCITY_INCREASE) && lt W (add x (mul v t))) = false ->
  le zero (add x (mul v t)) = true /\ le (add x (mul v t)) W = true.
Proof.
  intros x v t W Hx Hv Hvn Ht Ht0 Hti Hx0 HxW HWi S1 S2.
  destruct t as [[]|[]| |[] mt et]; try discriminate.
  assert (Hxi : lt x (S754_infinity false) = true) by (eapply le_lt_trans; eassumption).
  assert (Hdn : is_nan (mul v (S754_finite false mt et)) = false)
    by (apply mul_pos_not_nan; assumption).
  assert (Hx'n : is_nan (add x (mul v (S754_finite false mt et))) = false)
    by (apply add_not_nan; assumption).
  pose proof VELOCITY_INCREASE_valid as Hc.
  pose proof (proj2 (le_not_nan _ _ HxW)) as HWn.
  destruct (le_or_lt v zero Hvn eq_refl) as [Hle|Hlt].
  - assert (Hd : le (mul v (S754_finite false mt et)) zero = true)
      by (apply mul_pos_nonpos; assumption).
    assert (Hc0 : le (mul v VELOCITY_INCREASE) zero = true)
      by (rewrite VELOCITY_INCREASE_eq in *; apply mul_pos_nonpos; assumption).
    rewrite Hc0 in S1; cbn [andb] in S1.
    split; [apply not_lt_le; [exact Hx'n|reflexivity|exact S1]|].
    apply (le_trans _ x); [|exact HxW].
    apply add_le; assumption.
  - assert (Hv0 : le zero v = true) by (apply lt_le; exact Hlt).
    assert (Hd : le zero (mul v (S754_finite false mt et)) = true)
      by (apply mul_pos_nonneg; assumption).
    rewrite (mul_increase_pos v Hv Hlt) in S2; cbn [andb] in S2.
    split; [|apply not_lt_le; [exact HWn|exact Hx'n|exact S2]].
    apply (le_trans _ x); [exact Hx0|].
    apply add_ge; assumption.
Qed.

(** ** Horizontal layout of reachable states *)

Lemma of_Z_shape : forall W, 0 <= W <= 2 ^ 53 ->
  of_Z W = zero \/ exists m e, of_Z W = S754_finite false m e /\
    Zdigits2 (Zpos m) = 53 /\ -52 <= e <= 1.
Proof.
  intros W HW.
  destruct (Z.eq_dec W 0) as [->|H0]; [left; reflexivity|].
  destruct (Z.eq_dec W (2 ^ 53)) as [->|H53].
  { right; exists 4503599627370496%positive, 1; split; [exact of_Z_two_pow_53|].
    split; [reflexivity|lia]. }
  right; rewrite of_Z_form by lia.
  eexists; eexists; split; [reflexivity|].
  pose proof (F64Facts.Zdigits2_le W 53 ltac:(lia) ltac:(lia) ltac:(lia)).
  pose proof (F64Facts.Zdigits2_pos_ge1 W ltac:(lia)).
  assert (0 < 2 ^ (53 - Zdigits2 W)) by (apply Z.pow_pos_nonneg; lia).
  rewrite Z2Pos.id by nia.
  rewrite F64Facts.Zdigits2_shift by lia; lia.
Qed.

Lemma of_Z_lt_inf : forall W, 0 <= W <= 2 ^ 53 -> lt (of_Z W) (S754_infinity false) = true.
Proof.
  intros W HW; destruct (of_Z_shape W HW) as [->|(m & e & -> & _)]; reflexivity.
Qed.

Lemma half_width_in_field : forall W, 0 <= W <= 2 ^ 53 ->
  valid (div (of_Z W) (lit 2)) = true /\ le zero (div (of_Z W) (lit 2)) = true /\
  le (div (of_Z W) (lit 2)) (of_Z W) = true.
Proof.
  intros W HW; split; [apply F64Facts.div_valid|].
  destruct (of_Z_shape W HW) as [->|(m & e & -> & Hd & He)].
  - split; vm_compute; reflexivity.
  - rewrite div_two_exact by (assumption || lia).
    split; [reflexivity|apply le_finite_exp; lia].
Qed.

(** Adding or subtracting [+0] leaves [+0] and positive finite values as
    they are. *)
Lemma add_sub_pos_zero : forall X,
  (X = zero \/ exists m e, X = S754_finite false m e) ->
  add X (S754_zero false) = X /\ sub X (S754_zero false) = X.
Proof. intros X [->|(m & e & ->)]; split; reflexivity. Qed.

Lemma paddle_x_fixed : forall H keys dt p, positive_duration dt ->
  vx (velocity p) = zero ->
  (x (position p) = zero \/ exists m e, x (position p) = S754_finite false m e) ->
  x (position (Player.update_position H keys dt p)) = x (position p) /\
  vx (velocity (Player.update_position H keys dt p)) = zero.
Proof.
  intros H keys dt p [H1 H2] Hv Hx.
  split; [|exact Hv].
  destruct (as_secs_f64 dt) as [[]|[]| |[] mt et] eqn:Et; try discriminate.
  pose proof (add_sub_pos_zero _ Hx) as [Ha Hs].
  unfold Player.update_position, Player.with_position; rewrite Et, Hv.
  change (mul zero (S754_finite false mt et)) with (S754_zero false).
  destruct (contains_key keys (key_up p)), (contains_key keys (key_down p));
    cbn [x position]; rewrite ?Ha, ?Hs; reflexivity.
Qed.

Lemma ball_update_x : forall H p1 p2 dt b b',
  Ball.update_position H p1 p2 dt b = Some b' ->
  exists v, (v = vx (bvelocity b) \/ v = neg (vx (bvelocity b))) /\
    x (bposition b') = add (x (bposition b)) (mul v (as_secs_f64 dt)) /\
    vx (bvelocity b') = mul v VELOCITY_INCREASE.
Proof.
  intros H p1 p2 dt b b' Hb; unfold Ball.update_position in Hb; cbv zeta in Hb.
  destruct (if le _ _ then _ else _) as [c|] eqn:Ec; [|discriminate].
  injection Hb as <-.
  pose proof (paddle_check_vx _ _ _ _ _ Ec) as Hvx.
  pose proof (proj1 (paddle_check_vy _ _ _ _ _ Ec)) as Hp.
  rewrite wall_vx in Hvx; rewrite wall_position in Hp.
  exists (vx (bvelocity c)); split; [exact Hvx|].
  unfold Ball.integrate, Ball.calc_next_position; cbn [x bposition bvelocity vx].
  rewrite Hp; split; reflexivity.
Qed.

Section Generator.

Context {Rng : Type}.
Variable rb : Rng -> bool * Rng.
Variable gr : f64 -> f64 -> Rng -> f64 * Rng.
Hypothesis Hgr : gen_range_contract gr.
Hypothesis Hgv : gen_range_valid gr.

Lemma random_vx_ok : forall r v r', Game.random_ball_velocity rb gr r = (v, r') ->
  valid (vx v) = true /\ is_nan (vx v) = false.
Proof.
  intros r v r' Hr; unfold Game.random_ball_velocity in Hr.
  destruct (rb r) as [c r1].
  assert (Hg : forall lo hi r0, valid lo = true -> valid hi = true -> lt lo hi = true ->
            valid (fst (gr lo hi r0)) = true /\ is_nan (fst (gr lo hi r0)) = false).
  { intros lo hi r0 Hl Hh Hlh; split; [exact (Hgv lo hi r0 Hl Hh Hlh)|].
    exact (proj2 (le_not_nan _ _ (proj1 (Hgr lo hi r0 Hlh)))). }
  destruct c;
    [pose proof (Hg (lit 10) (lit 20) r1 eq_refl eq_refl eq_refl) as Hc;
     destruct (gr (lit 10) (lit 20) r1) as [v1 r2]
    |pose proof (Hg (neg (lit 20)) (neg (lit 10)) r1 eq_refl eq_refl eq_refl) as Hc;
     destruct (gr (neg (lit 20)) (neg (lit 10)) r1) as [v1 r2]];
    destruct (gr (neg (lit 6)) (lit 6) r2) as [v2 r3];
    injection Hr as <- <-; exact Hc.
Qed.

Lemma reset_field_inv : forall s r, 0 <= width s <= 2 ^ 53 ->
  vx (velocity (player1 s)) = zero -> vx (velocity (player2 s)) = zero ->
  field_inv (fst (Game.reset_ball_and_players rb gr s r)).
Proof.
  intros s r Hw H1 H2; unfold Game.reset_ball_and_players.
  destruct (Game.random_ball_velocity rb gr r) as [v r'] eqn:Ev.
  destruct (random_vx_ok _ _ _ Ev) as [Hv Hn].
  destruct (half_width_in_field _ Hw) as (Hb1 & Hb2 & Hb3).
  unfold field_inv; cbv zeta; cbn [fst width player1 player2 ball bposition bvelocity
    position velocity x vx Player.with_position Player.new Game.initial_player1_position
    Game.initial_player2_position Game.initial_ball_position].
  repeat split; assumption || lia || reflexivity.
Qed.

Lemma new_field_inv : forall w h up down r, 0 <= w <= 2 ^ 53 ->
  field_inv (fst (Game.new rb gr w h up down r)).
Proof.
  intros w h up down r Hw; unfold Game.new, Game.ball_new.
  destruct (Game.random_ball_velocity rb gr r) as [v r'] eqn:Ev.
  destruct (random_vx_ok _ _ _ Ev) as [Hv Hn].
  destruct (half_width_in_field _ Hw) as (Hb1 & Hb2 & Hb3).
  unfold field_inv; cbv zeta; cbn [fst width player1 player2 ball bposition bvelocity
    position velocity x vx Player.with_position Player.new Game.initial_player1_position
    Game.initial_player2_position Game.initial_ball_position].
  repeat split; assumption || lia || reflexivity.
Qed.

Lemma update_field_inv : forall keys dt s r s' r', field_inv s ->
  positive_duration dt -> Game.update rb gr keys dt s r = Some (s', r') -> field_inv s'.
Proof.
  intros keys dt s r s' r' Hs Hdt Hu.
  destruct Hs as (Hw & Hp1 & Hp2 & Hv1 & Hv2 & Hbx & Hbv & Hbn & Hb0 & HbW).
  unfold Game.update in Hu.
  destruct (contains_key keys (Char "r"%char)).
  { injection Hu as Hu; replace s' with (fst (Game.reset_ball_and_players rb gr s r))
      by (rewrite Hu; reflexivity).
    apply reset_field_inv; assumption. }
  cbv zeta in Hu.
  set (p1 := Player.update_position (of_Z (height s)) keys dt (player1 s)) in Hu.
  set (p2 := Player.update_position (of_Z (height s)) keys dt (player2 s)) in Hu.
  destruct (paddle_x_fixed (of_Z (height s)) keys dt (player1 s) Hdt Hv1
              (or_introl Hp1)) as [Hq1 Hw1].
  assert (Hx2 : x (position (player2 s)) = zero \/
                exists m e, x (position (player2 s)) = S754_finite false m e).
  { rewrite Hp2; destruct (of_Z_shape _ Hw) as [->|(m & e & -> & _)];
      [left|right; exists m, e]; reflexivity. }
  destruct (paddle_x_fixed (of_Z (height s)) keys dt (player2 s) Hdt Hv2 Hx2)
    as [Hq2 Hw2].
  fold p1 in Hq1, Hw1; fold p2 in Hq2, Hw2.
  destruct (Ball.update_position _ p1 p2 dt (ball s)) as [b|] eqn:Eb; [|discriminate].
  unfold Game.update_score in Hu; cbn [ball player1 player2 player1_score player2_score] in Hu.
  destruct (le (vx (bvelocity b)) zero && lt (x (bposition b)) (x (position p1))) eqn:S1.
  { destruct (usize_add (player2_score s) 1); [|discriminate].
    injection Hu as Hu.
    match type of Hu with Game.reset_ball_and_players _ _ ?s0 _ = _ =>
      replace s' with (fst (Game.reset_ball_and_players rb gr s0 r))
        by (rewrite Hu; reflexivity) end.
    apply reset_field_inv; assumption. }
  destruct (lt zero (vx (bvelocity b)) && lt (x (position p2)) (x (bposition b))) eqn:S2.
  { destruct (usize_add (player1_score s) 1); [|discriminate].
    injection Hu as Hu.
    match type of Hu with Game.reset_ball_and_players _ _ ?s0 _ = _ =>
      replace s' with (fst (Game.reset_ball_and_players rb gr s0 r))
        by (rewrite Hu; reflexivity) end.
    apply reset_field_inv; assumption. }
  injection Hu as <- _.
  destruct (ball_update_x _ _ _ _ _ _ Eb) as (v & Hv & Hx & Hvx).
  assert (Hvv : valid v = true /\ is_nan v = false)
    by (destruct Hv as [->| ->]; [split; assumption|];
        split; [apply F64Facts.neg_valid; assumption|
          rewrite <- Hbn; destruct (vx (bvelocity (ball s))); reflexivity]).
  destruct Hvv as [Hvv Hvn].
  pose proof (as_secs_f64_valid dt) as Ht.
  destruct Hdt as [Ht0 Hti].
  rewrite Hx, Hvx, Hq1, Hp1 in S1; rewrite Hx, Hvx, Hq2, Hp2 in S2.
  destruct (ball_x_step (x (bposition (ball s))) v (as_secs_f64 dt) (of_Z (width s))
              Hbx Hvv Hvn Ht Ht0 Hti Hb0 HbW (of_Z_lt_inf _ Hw) S1 S2) as [Hl Hr].
  assert (Hc : VELOCITY_INCREASE = S754_finite false 4517110426252607 (-52))
    by exact VELOCITY_INCREASE_eq.
  unfold field_inv; cbn [width player1 player2 ball].
  rewrite Hq1, Hq2, Hw1, Hw2, Hx, Hvx.
  repeat split; try assumption; try lia.
  - apply F64Facts.add_valid; [assumption|apply F64Facts.mul_valid; assumption].
  - apply F64Facts.mul_valid; [assumption|exact VELOCITY_INCREASE_valid].
  - rewrite Hc; apply mul_pos_not_nan; [assumption|reflexivity|assumption].
Qed.

Lemma reachable_field_inv : forall sr, reachable rb gr sr -> field_inv (fst sr).
Proof.
  intros sr Hr; induction Hr as [w h up down r Hw|keys dt s r s' r' _ IH Hdt Hu].
  - apply new_field_inv; exact Hw.
  - exact (update_field_inv keys dt s r s' r' IH Hdt Hu).
Qed.

End Generator.

(** C9 (amended).  Given [gen_range]'s contract and that it returns genuine
    [f64] values, in every state reachable from [GameState::new] on a field
    at most [2^53] cells wide by [GameState::update] calls with positive
    durations, the ball's [x] lies in [[0, width]]: an update that would
    carry it past a paddle's column scores and resets it to [width/2].  The
    vertical bound does not hold: see [ball_leaves_field_top]. *)
Theorem ball_x_within_field : forall {Rng} rb (gr : f64 -> f64 -> Rng -> f64 * Rng),
  gen_range_contract gr -> gen_range_valid gr ->
  forall s r, reachable rb gr (s, r) ->
  le zero (x (bposition (ball s))) = true /\
  le (x (bposition (ball s))) (of_Z (width s)) = true.
Proof.
  intros Rng rb gr Hgr Hgv s r Hr.
  destruct (reachable_field_inv rb gr Hgr Hgv (s, r) Hr)
    as (_ & _ & _ & _ & _ & _ & _ & _ & H0 & HW).
  split; assumption.
Qed.

Lemma ball_x_within_field_witness :
  let sr0 := Game.new test_random_bool test_gen_range 60 18 1 1 O in
  let sr1 := match Game.update test_random_bool test_gen_range [] (mkDuration 2 0)
                     (fst sr0) (snd sr0) with Some sr => sr | None => sr0 end in
  let sr2 := match Game.update test_random_bool test_gen_range [Char "w"%char] tick
                     (fst sr1) (snd sr1) with Some sr => sr | None => sr1 end in
  Game.update test_random_bool test_gen_range [] (mkDuration 2 0) (fst sr0) (snd sr0)
    = Some sr1 /\
  Game.update test_random_bool test_gen_range [Char "w"%char] tick (fst sr1) (snd sr1)
    = Some sr2 /\
  le zero (x (bposition (ball (fst sr2)))) = true /\
  le (x (bposition (ball (fst sr2)))) (of_Z (width (fst sr2))) = true.
Proof.
  intros sr0 sr1 sr2.
  assert (H1 : Game.update test_random_bool test_gen_range [] (mkDuration 2 0)
                 (fst sr0) (snd sr0) = Some sr1) by (vm_compute; reflexivity).
  assert (H2 : Game.update test_random_bool test_gen_range [Char "w"%char] tick
                 (fst sr1) (snd sr1) = Some sr2) by (vm_compute; reflexivity).
  assert (Hc : gen_range_contract test_gen_range).
  { intros low high r Hlt; split; [exact (le_refl_of_lt _ _ Hlt)|exact Hlt]. }
  assert (Hv : gen_range_valid test_gen_range).
  { intros low high r Hl _ _; exact Hl. }
  assert (R0 : reachable test_random_bool test_gen_range (fst sr0, snd sr0)).
  { rewrite <- surjective_pairing; apply reachable_new; lia. }
  assert (R1 : reachable test_random_bool test_gen_range (fst sr1, snd sr1)).
  { apply (reachable_update _ _ [] (mkDuration 2 0) (fst sr0) (snd sr0)); [exact R0| |].
    - split; vm_compute; reflexivity.
    - rewrite <- surjective_pairing; exact H1. }
  assert (R2 : reachable test_random_bool test_gen_range (fst sr2, snd sr2)).
  { apply (reachable_update _ _ [Char "w"%char] tick (fst sr1) (snd sr1)); [exact R1| |].
    - split; vm_compute; reflexivity.
    - rewrite <- surjective_pairing; exact H2. }
  split; [exact H1|]; split; [exact H2|].
  exact (ball_x_within_field test_random_bool test_gen_range Hc Hv (fst sr2) (snd sr2) R2).
Defined.

(** ** Loops: [omap] and [0..=n] *)

Lemma omap_Some_Forall2 : forall {A B} (f : A -> option B) l l',
  omap f l = Some l' -> Forall2 (fun a b => f a = Some b) l l'.
Proof.
  intros A B f l; induction l as [|a l IH]; intros l' H; simpl in H.
  - injection H as <-; constructor.
  - destruct (f a) eqn:Ea; [|discriminate].
    destruct (omap f l) eqn:El; [|discriminate].
    injection H as <-; constructor; [assumption|apply IH; reflexivity].
Qed.

Lemma omap_None : forall {A B} (f : A -> option B) l a,
  In a l -> f a = None -> omap f l = None.
Proof.
  intros A B f l; induction l as [|b l IH]; intros a Hin Ha; [destruct Hin|].
  simpl; destruct Hin as [<-|Hin]; [rewrite Ha; reflexivity|].
  destruct (f b); [|reflexivity]; rewrite (IH a Hin Ha); reflexivity.
Qed.

Lemma omap_total : forall {A B} (f : A -> option B) l,
  (forall a, In a l -> f a <> None) -> exists l', omap f l = Some l'.
Proof.
  intros A B f l; induction l as [|a l IH]; intros H; [exists []; reflexivity|].
  simpl; destruct (f a) as [b|] eqn:Ea;
    [|exfalso; apply (H a); [left; reflexivity|exact Ea]].
  destruct IH as [l' ->]; [intros c Hc; apply H; right; exact Hc|].
  exists (b :: l'); reflexivity.
Qed.

Lemma Forall2_map_eq : forall {A B C} (R : A -> B -> Prop) (f : B -> C) (g : A -> C) l l',
  Forall2 R l l' -> (forall a b, R a b -> f b = g a) -> map f l' = map g l.
Proof.
  intros A B C R f g l l' H; induction H as [|a b l l' Hab _ IH]; intros Hfg;
    [reflexivity|]; simpl; rewrite (Hfg _ _ Hab), IH by assumption; reflexivity.
Qed.

Lemma in_range_incl : forall n z, 0 <= n -> In z (range_incl n) <-> 0 <= z <= n.
Proof.
  intros n z Hn; unfold range_incl; rewrite in_map_iff; split.
  - intros (k & <- & Hk); apply in_seq in Hk; lia.
  - intros Hz; exists (Z.to_nat z); split; [lia|apply in_seq; lia].
Qed.

Lemma length_range_incl : forall n, List.length (range_incl n) = S (Z.to_nat n).
Proof. intros; unfold range_incl; rewrite length_map, length_seq; reflexivity. Qed.

Lemma count_as_sum : forall {A} (p : A -> bool) l,
  List.length (filter p l) = list_sum (map (fun a => if p a then 1%nat else 0%nat) l).
Proof.
  intros A p l; induction l as [|a l IH]; [reflexivity|]; simpl.
  destruct (p a); simpl; rewrite IH; reflexivity.
Qed.

Lemma count_concat : forall {A} (p : A -> bool) (rows : list (list A)),
  List.length (filter p (List.concat rows)) = list_sum (map (fun r => List.length (filter p r)) rows).
Proof.
  intros A p rows; rewrite <- concat_filter_map, length_concat, map_map; reflexivity.
Qed.

Lemma list_sum_const : forall {A} (c : nat) (l : list A),
  list_sum (map (fun _ => c) l) = (List.length l * c)%nat.
Proof. intros A c l; induction l as [|a l IH]; simpl; [reflexivity|]; rewrite IH; lia. Qed.

Lemma list_sum_rev : forall l, list_sum (rev l) = list_sum l.
Proof.
  intros l; induction l as [|a l IH]; [reflexivity|]; simpl.
  rewrite list_sum_app, IH; simpl; lia.
Qed.

Lemma list_sum_cons_eq : forall a l, list_sum (a :: l) = (a + list_sum l)%nat.
Proof. reflexivity. Qed.

(** Summing over [s, s+1, ..., s+k-1] a value that is non-zero only at [a]. *)
Lemma sum_indicator_seq : forall a c s k,
  list_sum (map (fun z => if z =? a then c else 0%nat) (map Z.of_nat (seq s k))) =
  if (Z.of_nat s <=? a) && (a <? Z.of_nat (s + k)) then c else 0%nat.
Proof.
  intros a c s k; revert s; induction k as [|k IH]; intros s.
  - simpl; destruct (Z.leb_spec (Z.of_nat s) a), (Z.ltb_spec a (Z.of_nat (s + 0)));
      simpl; reflexivity || lia.
  - change (seq s (S k)) with (s :: seq (S s) k); cbn [map]; rewrite list_sum_cons_eq, IH.
    destruct (Z.eqb_spec (Z.of_nat s) a) as [<-|Hne].
    + destruct (Z.leb_spec (Z.of_nat (S s)) (Z.of_nat s)); [lia|].
      destruct (Z.leb_spec (Z.of_nat s) (Z.of_nat s)); [|lia].
      destruct (Z.ltb_spec (Z.of_nat s) (Z.of_nat (s + S k))); [|lia].
      simpl; lia.
    + destruct (Z.leb_spec (Z.of_nat (S s)) a), (Z.ltb_spec a (Z.of_nat (S s + k))),
        (Z.leb_spec (Z.of_nat s) a), (Z.ltb_spec a (Z.of_nat (s + S k)));
        simpl; reflexivity || lia.
Qed.

Lemma sum_indicator_range : forall a c n, 0 <= n ->
  list_sum (map (fun z => if z =? a then c else 0%nat) (range_incl n)) =
  if (0 <=? a) && (a <=? n) then c else 0%nat.
Proof.
  intros a c n Hn; unfold range_incl; rewrite sum_indicator_seq.
  destruct (Z.leb_spec (Z.of_nat 0) a), (Z.ltb_spec a (Z.of_nat (0 + S (Z.to_nat n)))),
    (Z.leb_spec 0 a), (Z.leb_spec a n); simpl; reflexivity || lia.
Qed.

(** ** Cells of the field *)

Lemma to_discrete_to_continuous_cell : forall xc yc,
  0 <= xc <= 2 ^ 53 -> 0 <= yc <= 2 ^ 53 ->
  to_discrete (to_continuous (DiscretePosition2D_new xc yc)) = DiscretePosition2D_new xc yc.
Proof.
  intros xc yc Hx Hy; unfold to_discrete, to_continuous; cbn [dx dy x y].
  rewrite !round_of_Z by assumption; reflexivity.
Qed.

(** [collides_with] on a query that is not too far: under its two
    no-overflow conditions, the segment test. *)
Lemma collides_with_cell : forall p xc yc,
  0 <= xc <= 2 ^ 53 -> 0 <= yc <= 2 ^ 53 ->
  extend_down p <= dy (to_discrete (position p)) ->
  dy (to_discrete (position p)) + extend_up p <= usize_max ->
  Player.collides_with p (to_continuous (DiscretePosition2D_new xc yc)) =
  Some (paddle_cell p xc yc).
Proof.
  intros p xc yc Hx Hy Hd Hu; unfold Player.collides_with, paddle_cell.
  rewrite to_discrete_to_continuous_cell by assumption; cbn [dx dy].
  unfold usize_sub, usize_add.
  destruct (Z.ltb_spec (dy (to_discrete (position p))) (extend_down p)); [lia|].
  destruct (Z.leb_spec (dy (to_discrete (position p)) - extend_down p) yc); [|reflexivity].
  destruct (Z.ltb_spec usize_max (dy (to_discrete (position p)) + extend_up p)); [lia|].
  reflexivity.
Qed.

(** Without a bound on the query: [collides_with] does not panic under the
    two no-overflow conditions. *)
Lemma collides_with_total : forall p q,
  extend_down p <= dy (to_discrete (position p)) ->
  dy (to_discrete (position p)) + extend_up p <= usize_max ->
  Player.collides_with p q <> None.
Proof.
  intros p q Hd Hu; unfold Player.collides_with, usize_sub, usize_add.
  destruct (Z.ltb_spec (dy (to_discrete (position p))) (extend_down p)); [lia|].
  destruct (_ <=? _); [|discriminate].
  destruct (Z.ltb_spec usize_max (dy (to_discrete (position p)) + extend_up p));
    [lia|discriminate].
Qed.

Lemma display_cell_total : forall s xc yc,
  (forall p, p = player1 s \/ p = player2 s ->
     extend_down p <= dy (to_discrete (position p)) /\
     dy (to_discrete (position p)) + extend_up p <= usize_max) ->
  display_cell s xc yc <> None.
Proof.
  intros s xc yc Hp; unfold display_cell.
  destruct (DiscretePosition2D_eqb _ _); [discriminate|].
  destruct (Hp (player1 s) (or_introl eq_refl)) as [H1 H1'].
  destruct (Hp (player2 s) (or_intror eq_refl)) as [H2 H2'].
  pose proof (collides_with_total (player1 s)
    (to_continuous (DiscretePosition2D_new xc yc)) H1 H1') as C1.
  pose proof (collides_with_total (player2 s)
    (to_continuous (DiscretePosition2D_new xc yc)) H2 H2') as C2.
  destruct (Player.collides_with (player1 s) _) as [[]|];
    [discriminate| |exfalso; exact (C1 eq_refl)].
  destruct (Player.collides_with (player2 s) _) as [[]|];
    [discriminate|discriminate|exfalso; exact (C2 eq_refl)].
Qed.

(** The ball's character is drawn exactly on the ball's cell. *)
Lemma display_cell_ball : forall s xc yc g, display_cell s xc yc = Some g ->
  is_ball_glyph (PrintChar g) =
  DiscretePosition2D_eqb (to_discrete (bposition (ball s))) (DiscretePosition2D_new xc yc).
Proof.
  intros s xc yc g H; unfold display_cell in H.
  destruct (DiscretePosition2D_eqb _ _); [injection H as <-; reflexivity|].
  destruct (Player.collides_with (player1 s) _) as [[]|]; [injection H as <-; reflexivity| |discriminate].
  destruct (Player.collides_with (player2 s) _) as [[]|]; try discriminate;
    injection H as <-; reflexivity.
Qed.

Lemma display_row_chars : forall s yc r, display_row s yc = Some r ->
  List.length (filter is_print_char r) = S (Z.to_nat (width s)).
Proof.
  intros s yc r H; unfold display_row in H.
  destruct (omap _ _) as [gs|] eqn:E; [|discriminate]; injection H as <-.
  apply omap_Some_Forall2, Forall2_length in E.
  rewrite filter_app, length_app, count_as_sum, map_map; cbn [is_print_char].
  rewrite list_sum_const; simpl; rewrite <- E, length_range_incl; lia.
Qed.

Lemma display_row_balls : forall s yc r, 0 <= width s -> display_row s yc = Some r ->
  List.length (filter is_ball_glyph r) =
  if dy (to_discrete (bposition (ball s))) =? yc then
    (if dx (to_discrete (bposition (ball s))) <=? width s then 1%nat else 0%nat)
  else 0%nat.
Proof.
  intros s yc r Hw H; unfold display_row in H.
  destruct (omap _ _) as [gs|] eqn:E; [|discriminate]; injection H as <-.
  apply omap_Some_Forall2 in E.
  rewrite filter_app, length_app, count_as_sum, map_map.
  change (filter is_ball_glyph [PrintStr crlf]) with (@nil Command).
  cbn [List.length]; rewrite Nat.add_0_r.
  rewrite (Forall2_map_eq _ (fun g => if is_ball_glyph (PrintChar g) then 1%nat else 0%nat)
             (fun xc => if xc =? dx (to_discrete (bposition (ball s))) then
                          (if dy (to_discrete (bposition (ball s))) =? yc then 1%nat else 0%nat)
                        else 0%nat) _ _ E).
  - rewrite sum_indicator_range by exact Hw.
    pose proof (round_nonneg (x (bposition (ball s)))) as H0.
    unfold to_discrete at 1 2 3 4 5; cbn [dx dy] in *.
    destruct (Z.leb_spec 0 (round_as_usize (x (bposition (ball s))))); [|lia].
    destruct (_ =? yc), (_ <=? width s); reflexivity.
  - intros xc g Hg; rewrite (display_cell_ball _ _ _ _ Hg).
    unfold DiscretePosition2D_eqb; cbn [dx dy].
    rewrite (Z.eqb_sym _ xc).
    destruct (xc =? _), (_ =? yc); reflexivity.
Qed.

Lemma Some_eq : forall {A} (a b : A), Some a = Some b -> b = a.
Proof. intros A a b H; congruence. Qed.

Lemma border_counts : forall w,
  List.length (filter is_print_char (border w)) = S (Z.to_nat w) /\
  List.length (filter is_ball_glyph (border w)) = 0%nat.
Proof.
  intros w; unfold border; rewrite !filter_app, !length_app, !count_as_sum, !map_map.
  cbn [is_print_char is_ball_glyph]; rewrite !list_sum_const, length_range_incl.
  simpl; lia.
Qed.

(** Rendering a reset state whose paddle1 reaches below row 0: the first
    cell that is not the ball's panics. *)
Lemma display_reset_None : forall {Rng} rb (gr : f64 -> f64 -> Rng -> f64 * Rng) s r,
  0 <= width s <= 2 ^ 53 -> 0 <= height s <= 2 ^ 53 -> (1 <= width s \/ 1 <= height s) ->
  (height s + 1) / 2 < extend_down (player1 s) ->
  display (fst (Game.reset_ball_and_players rb gr s r)) = None.
Proof.
  intros Rng rb gr s r Hw Hh H1 Hd; unfold Game.reset_ball_and_players.
  destruct (Game.random_ball_velocity rb gr r) as [v r'].
  unfold fst, display; cbn [height width].
  rewrite (omap_None _ _ 0); [reflexivity| |].
  { apply (proj1 (in_rev _ _)), (proj2 (in_range_incl (height s) 0 ltac:(lia))); lia. }
  unfold display_row; cbn [width].
  rewrite (omap_None _ _ 0);
    [reflexivity|apply (proj2 (in_range_incl (width s) 0 ltac:(lia))); lia|].
  unfold display_cell, DiscretePosition2D_eqb, to_discrete; cbn [ball bposition dx dy x y
    Game.initial_ball_position player1 Player.with_position position
    Game.initial_player1_position].
  rewrite !round_half by assumption.
  destruct (Z.eqb_spec ((width s + 1) / 2) 0) as [E1|E1];
    destruct (Z.eqb_spec ((height s + 1) / 2) 0) as [E2|E2].
  1: exfalso; destruct H1; [assert (1 <= (width s + 1) / 2) by (apply Z.div_le_lower_bound; lia)
                          |assert (1 <= (height s + 1) / 2) by (apply Z.div_le_lower_bound; lia)];
      lia.
  all: cbn [andb]; unfold Player.collides_with, usize_sub, to_discrete; cbn [position y dy
      Player.with_position Game.initial_player1_position extend_down].
    all: rewrite round_half by assumption.
    all: destruct (Z.ltb_spec ((height s + 1) / 2) (extend_down (player1 s))); [reflexivity|lia].
Qed.

(** X1.  [DiscretePosition2D::to_continuous] followed by
    [Position2D::to_discrete] gives back every cell whose coordinates are
    at most [2^53]; at [2^53 + 1] the conversion to [f64] rounds and the
    cell is not recovered. *)
Theorem discrete_continuous_roundtrip :
  (forall d, 0 <= dx d <= 2 ^ 53 -> 0 <= dy d <= 2 ^ 53 ->
     to_discrete (to_continuous d) = d) /\
  to_discrete (to_continuous (DiscretePosition2D_new (2 ^ 53 + 1) 0)) =
    DiscretePosition2D_new (2 ^ 53) 0.
Proof.
  split; [|vm_compute; reflexivity].
  intros [xc yc] Hx Hy; apply to_discrete_to_continuous_cell; assumption.
Qed.

(** X2.  When neither paddle's [collides_with] can overflow (rounded [y] at
    least [extend_down], rounded [y] plus [extend_up] at most
    [usize::MAX]), [display] draws cell [(x, y)] (coordinates up to [2^53])
    as the ball if it is the ball's rounded cell, else as a block exactly
    when it lies on paddle1's or paddle2's column segment, else blank. *)
Theorem display_cell_glyph : forall s xc yc,
  0 <= xc <= 2 ^ 53 -> 0 <= yc <= 2 ^ 53 ->
  (forall p, p = player1 s \/ p = player2 s ->
     extend_down p <= dy (to_discrete (position p)) /\
     dy (to_discrete (position p)) + extend_up p <= usize_max) ->
  display_cell s xc yc =
  Some (if DiscretePosition2D_eqb (to_discrete (bposition (ball s)))
             (DiscretePosition2D_new xc yc) then BallGlyph
        else if paddle_cell (player1 s) xc yc || paddle_cell (player2 s) xc yc
        then BlockGlyph else BlankGlyph).
Proof.
  intros s xc yc Hx Hy Hp; unfold display_cell.
  destruct (DiscretePosition2D_eqb _ _); [reflexivity|].
  destruct (Hp (player1 s) (or_introl eq_refl)) as [H1 H1'].
  destruct (Hp (player2 s) (or_intror eq_refl)) as [H2 H2'].
  rewrite !collides_with_cell by assumption.
  destruct (paddle_cell (player1 s) xc yc), (paddle_cell (player2 s) xc yc); reflexivity.
Qed.

(** X3.  Under the same two no-overflow conditions on both paddles,
    [display] does not panic, whatever the field size and the ball's
    position. *)
Theorem display_total : forall s,
  (forall p, p = player1 s \/ p = player2 s ->
     extend_down p <= dy (to_discrete (position p)) /\
     dy (to_discrete (position p)) + extend_up p <= usize_max) ->
  exists out, display s = Some out.
Proof.
  intros s Hp; unfold display.
  destruct (omap_total (display_row s) (rev (range_incl (height s)))) as [rows ->];
    [|eexists; reflexivity].
  intros yc _; unfold display_row.
  destruct (omap_total (fun xc => display_cell s xc yc) (range_incl (width s)))
    as [gs ->]; [|discriminate].
  intros xc _; apply display_cell_total; exact Hp.
Qed.

(** X4.  A [display] that does not panic prints exactly
    [(width + 1) * (height + 3)] characters: the top and bottom borders and
    [height + 1] rows of [width + 1] cells. *)
Theorem display_char_count : forall s out, display s = Some out ->
  List.length (filter is_print_char out) =
  (S (Z.to_nat (width s)) * (Z.to_nat (height s) + 3))%nat.
Proof.
  intros s out H; unfold display in H.
  destruct (omap _ _) as [rows|] eqn:E; [|discriminate].
  apply Some_eq in H; subst out.
  rewrite !filter_app, !length_app; cbn [filter is_print_char app List.length].
  destruct (border_counts (width s)) as [Hc _].
  rewrite Hc, count_concat.
  apply omap_Some_Forall2 in E.
  rewrite (Forall2_map_eq _ (fun r => List.length (filter is_print_char r))
             (fun _ => S (Z.to_nat (width s))) _ _ E)
    by (intros yc r Hr; exact (display_row_chars _ _ _ Hr)).
  rewrite list_sum_const, length_rev, length_range_incl; simpl; lia.
Qed.

(** X5.  A [display] that does not panic draws the ball exactly once when
    its rounded cell lies in the field ([x <= width], [y <= height]; a
    negative coordinate rounds to cell [0]) and not at all otherwise. *)
Theorem display_ball_count : forall s out,
  0 <= width s -> 0 <= height s -> display s = Some out ->
  List.length (filter is_ball_glyph out) =
  if (dx (to_discrete (bposition (ball s))) <=? width s) &&
     (dy (to_discrete (bposition (ball s))) <=? height s) then 1%nat else 0%nat.
Proof.
  intros s out Hw Hh H; unfold display in H.
  destruct (omap _ _) as [rows|] eqn:E; [|discriminate].
  apply Some_eq in H; subst out.
  rewrite !filter_app, !length_app; cbn [filter is_ball_glyph app List.length].
  destruct (border_counts (width s)) as [_ Hc].
  rewrite Hc, count_concat.
  apply omap_Some_Forall2 in E.
  set (c := if dx (to_discrete (bposition (ball s))) <=? width s then 1%nat else 0%nat).
  rewrite (Forall2_map_eq _ (fun r => List.length (filter is_ball_glyph r))
             (fun yc => if yc =? dy (to_discrete (bposition (ball s))) then c else 0%nat)
             _ _ E)
    by (intros yc r Hr; rewrite (display_row_balls _ _ _ Hw Hr), Z.eqb_sym; reflexivity).
  rewrite map_rev, list_sum_rev, sum_indicator_range by exact Hh.
  pose proof (round_nonneg (y (bposition (ball s)))) as H0.
  subst c; unfold to_discrete in *; cbn [dx dy] in *.
  destruct (Z.leb_spec 0 (round_as_usize (y (bposition (ball s))))); [|lia].
  destruct (_ <=? width s), (_ <=? height s); reflexivity.
Qed.

(** X6.  A reset ([r] key or score) on a field with at least two cells
    ([width] and [height] at most [2^53]) where paddle1's [extend_down]
    exceeds [(height + 1) / 2] leaves a state whose [display] panics: the
    reset puts paddle1 at rounded row [(height + 1) / 2], and
    [collides_with] underflows at the first cell that is not the ball's. *)
Theorem display_after_reset_panics :
  forall {Rng} rb (gr : f64 -> f64 -> Rng -> f64 * Rng) s r,
  0 <= width s <= 2 ^ 53 -> 0 <= height s <= 2 ^ 53 -> (1 <= width s \/ 1 <= height s) ->
  (height s + 1) / 2 < extend_down (player1 s) ->
  display (fst (Game.reset_ball_and_players rb gr s r)) = None.
Proof.
  intros Rng rb gr s r Hw Hh H1 Hd; apply display_reset_None; assumption.
Qed.

(** ** Witnesses of the display properties, on a 6x4 field *)

Ltac zcomp := vm_compute; first [reflexivity | let Hc := fresh in intro Hc; discriminate Hc].

Lemma discrete_continuous_roundtrip_witness :
  to_discrete (to_continuous (DiscretePosition2D_new 3 4)) = DiscretePosition2D_new 3 4.
Proof. apply (proj1 discrete_continuous_roundtrip); cbn [dx dy]; lia. Defined.

Lemma display_cell_glyph_witness :
  display_cell (test_game 6 4 1 1) 0 3 = Some BlockGlyph.
Proof.
  rewrite (display_cell_glyph (test_game 6 4 1 1) 0 3); [zcomp|lia|lia|].
  intros p [-> | ->]; split; zcomp.
Defined.

Lemma display_total_witness : exists out, display (test_game 6 4 1 1) = Some out.
Proof. apply display_total; intros p [-> | ->]; split; zcomp. Defined.

Lemma display_char_count_witness :
  let out := match display (test_game 6 4 1 1) with Some o => o | None => [] end in
  display (test_game 6 4 1 1) = Some out /\ List.length (filter is_print_char out) = 49%nat.
Proof.
  intros out; assert (H : display (test_game 6 4 1 1) = Some out) by (vm_compute; reflexivity).
  split; [exact H|]; rewrite (display_char_count _ _ H); zcomp.
Defined.

Lemma display_ball_count_witness :
  let out := match display (test_game 6 4 1 1) with Some o => o | None => [] end in
  display (test_game 6 4 1 1) = Some out /\ List.length (filter is_ball_glyph out) = 1%nat.
Proof.
  intros out; assert (H : display (test_game 6 4 1 1) = Some out) by (vm_compute; reflexivity).
  split; [exact H|]; rewrite (display_ball_count (test_game 6 4 1 1) out ltac:(zcomp) ltac:(zcomp) H); zcomp.
Defined.

Lemma display_after_reset_panics_witness :
  display (fst (Game.reset_ball_and_players test_random_bool test_gen_range
                  (test_game 6 2 1 2) O)) = None.
Proof.
  apply display_after_reset_panics; [split; zcomp|split; zcomp|left; zcomp|zcomp].
Defined.

(** ** The pressed-key map and [main]'s frame *)

Lemma KeyCode_eqb_spec : forall a b, KeyCode_eqb a b = true <-> a = b.
Proof.
  intros [] []; simpl; split; intros H; try discriminate; try reflexivity;
    try (injection H as <-);
    try (apply Ascii.eqb_eq in H as ->; reflexivity);
    try (apply Nat.eqb_eq in H as ->; reflexivity);
    try (apply Ascii.eqb_refl); try (apply Nat.eqb_refl).
Qed.

Lemma KeyCode_eqb_refl : forall a, KeyCode_eqb a a = true.
Proof. intros a; apply KeyCode_eqb_spec; reflexivity. Qed.

Lemma KeyCode_eqb_sym : forall a b, KeyCode_eqb a b = KeyCode_eqb b a.
Proof.
  intros a b; destruct (KeyCode_eqb a b) eqn:E, (KeyCode_eqb b a) eqn:E'; try reflexivity.
  - apply KeyCode_eqb_spec in E as ->; rewrite KeyCode_eqb_refl in E'; discriminate.
  - apply KeyCode_eqb_spec in E' as ->; rewrite KeyCode_eqb_refl in E; discriminate.
Qed.

Lemma km_get_filter : forall m k k', KeyCode_eqb k' k = false ->
  km_get (filter (fun kv => negb (KeyCode_eqb k (fst kv))) m) k' = km_get m k'.
Proof.
  intros m k k' Hne; induction m as [|[k0 v0] m IH]; [reflexivity|]; simpl.
  destruct (KeyCode_eqb k k0) eqn:E; simpl.
  - apply KeyCode_eqb_spec in E as <-; rewrite Hne; exact IH.
  - rewrite IH; reflexivity.
Qed.

Lemma km_get_insert : forall k v m k',
  km_get (km_insert k v m) k' = if KeyCode_eqb k' k then Some v else km_get m k'.
Proof.
  intros k v m k'; unfold km_insert; simpl.
  destruct (KeyCode_eqb k' k) eqn:E; [reflexivity|]; apply km_get_filter; exact E.
Qed.

Lemma contains_km_get : forall m k,
  contains_key (km_keys m) k = match km_get m k with Some _ => true | None => false end.
Proof.
  intros m k; induction m as [|[k0 v0] m IH]; [reflexivity|]; simpl.
  unfold contains_key in *; simpl; destruct (KeyCode_eqb k k0); [reflexivity|exact IH].
Qed.

Lemma get_pressed_keys_from_ok : forall inp m, ~ In IoError inp ->
  exists m', get_pressed_keys_from inp m = Some m' /\
  forall k, km_get m' k =
    match last_key_event inp k with Some e => Some e | None => km_get m k end.
Proof.
  intros inp; induction inp as [|[[e|]|] inp IH]; intros m Hio.
  - exists m; split; [reflexivity|intros k; reflexivity].
  - destruct (IH (km_insert (code e) e m)) as (m' & Hm' & Hk);
      [intros Hin; apply Hio; right; exact Hin|].
    exists m'; split; [exact Hm'|]; intros k; rewrite Hk, km_get_insert; simpl.
    destruct (last_key_event inp k); [reflexivity|].
    destruct (KeyCode_eqb k (code e)); reflexivity.
  - destruct (IH m) as (m' & Hm' & Hk); [intros Hin; apply Hio; right; exact Hin|].
    exists m'; split; [exact Hm'|]; intros k; rewrite Hk; reflexivity.
  - exfalso; apply Hio; left; reflexivity.
Qed.

Lemma get_pressed_keys_from_err : forall inp m, In IoError inp ->
  get_pressed_keys_from inp m = None.
Proof.
  intros inp; induction inp as [|[[e|]|] inp IH]; intros m Hin; [destruct Hin| | |reflexivity];
    (destruct Hin as [Hc|Hin]; [discriminate|]); simpl; apply IH; exact Hin.
Qed.

Lemma In_dec_IoError : forall inp, {In IoError inp} + {~ In IoError inp}.
Proof.
  intros inp; induction inp as [|[e|] inp IH]; [right; intros []| |left; left; reflexivity].
  destruct IH as [H|H]; [left; right; exact H|right; intros [Hc|Hc]; [discriminate|auto]].
Qed.

Section MainFacts.

Context {Rng : Type}.
Variable rb : Rng -> bool * Rng.
Variable gr : f64 -> f64 -> Rng -> f64 * Rng.

Lemma tick_positive : positive_duration (from_millis 100).
Proof. split; vm_compute; reflexivity. Qed.

Lemma main_frame_running : forall inp s r s' r' scr,
  main_frame rb gr inp s r = Running s' r' scr ->
  exists keys, Game.update rb gr keys (from_millis 100) s r = Some (s', r') /\
               display s' = Some scr.
Proof.
  intros inp s r s' r' scr H; unfold main_frame in H.
  destruct (match km_get _ (Char "c"%char) with Some _ => _ | None => false end);
    [discriminate|].
  destruct (Game.update _ _ _ _ s r) as [[s1 r1]|] eqn:E; [|discriminate].
  destruct (display s1) eqn:D; [|discriminate].
  injection H as <- <- <-; eexists; split; [exact E|exact D].
Qed.

Lemma main_frame_quit : forall inp s r s', main_frame rb gr inp s r = Quit s' -> s' = s.
Proof.
  intros inp s r s' H; unfold main_frame in H.
  destruct (match km_get _ (Char "c"%char) with Some _ => _ | None => false end);
    [injection H as <-; reflexivity|].
  destruct (Game.update _ _ _ _ s r) as [[s1 r1]|]; [|discriminate].
  destruct (display s1); discriminate.
Qed.

(** Every state [main_loop] holds, or stops in, is reachable. *)
Lemma main_loop_reachable : forall frames s r scr,
  reachable rb gr (s, r) ->
  (forall s' r' scr', main_loop rb gr frames s r scr = Running s' r' scr' ->
     reachable rb gr (s', r') /\ ((s' = s /\ scr' = scr) \/ display s' = Some scr')) /\
  (forall s', main_loop rb gr frames s r scr = Quit s' -> exists r', reachable rb gr (s', r')).
Proof.
  intros frames; induction frames as [|inp frames IH]; intros s r scr Hr; simpl.
  - split; [intros s' r' scr' H; injection H as <- <- <-; split; [exact Hr|left; split; reflexivity]
           |intros s' H; discriminate].
  - destruct (main_frame rb gr inp s r) as [s1| |s1 r1 scr1] eqn:F.
    + split; [discriminate|intros s' H; injection H as <-].
      apply main_frame_quit in F as ->; exists r; exact Hr.
    + split; discriminate.
    + destruct (main_frame_running _ _ _ _ _ _ F) as (keys & Hu & Hd).
      assert (Hr1 : reachable rb gr (s1, r1))
        by exact (reachable_update rb gr keys _ s r s1 r1 Hr tick_positive Hu).
      destruct (IH s1 r1 scr1 Hr1) as [IH1 IH2]; split; [|exact IH2].
      intros s' r' scr' H; destruct (IH1 s' r' scr' H) as [Hr' [[-> ->]|Hd']].
      * split; [exact Hr'|right; exact Hd].
      * split; [exact Hr'|right; exact Hd'].
Qed.

End MainFacts.

Lemma main_loop_display : forall {Rng} rb (gr : f64 -> f64 -> Rng -> f64 * Rng)
  frames s r scr s' r' scr', frames <> [] ->
  main_loop rb gr frames s r scr = Running s' r' scr' -> display s' = Some scr'.
Proof.
  intros Rng rb gr frames; induction frames as [|inp frames IH]; intros s r scr s' r' scr' Hne H;
    [exfalso; apply Hne; reflexivity|]; simpl in H.
  destruct (main_frame rb gr inp s r) as [s1| |s1 r1 scr1] eqn:F; try discriminate.
  destruct frames as [|inp' frames].
  - injection H as <- <- <-; destruct (main_frame_running rb gr _ _ _ _ _ _ F) as (? & _ & Hd);
      exact Hd.
  - exact (IH s1 r1 scr1 s' r' scr' ltac:(discriminate) H).
Qed.

Lemma get_pressed_keys_lookup : forall inp, ~ In IoError inp ->
  exists m, get_pressed_keys inp = Some m /\ forall k, km_get m k = last_key_event inp k.
Proof.
  intros inp Hio; destruct (get_pressed_keys_from_ok inp [] Hio) as (m & Hm & Hk).
  exists m; split; [exact Hm|]; intros k; rewrite Hk; destruct (last_key_event inp k); reflexivity.
Qed.

(** ** [GameLoop] *)

Lemma GameLoop_run_gen : forall clocks fn st dpf t,
  clocks_ok (GameLoop_mk (Z.of_nat fn) st dpf) t clocks ->
  Z.of_nat (fn + List.length clocks) <= u64_max ->
  exists gl, GameLoop_run (GameLoop_mk (Z.of_nat fn) st dpf) clocks =
               Some (map Z.of_nat (seq fn (List.length clocks)), gl) /\
             frame gl = Z.of_nat (fn + List.length clocks) /\
             duration_per_frame gl = dpf /\
             st + Z.of_nat (List.length clocks) * dpf <= current_frame_start gl.
Proof.
  intros clocks; induction clocks as [|[[now1 now2] now3] clocks IH]; intros fn st dpf t Hok Hmax.
  - exists (GameLoop_mk (Z.of_nat fn) st dpf); cbn [List.length seq map GameLoop_run].
    rewrite Nat.add_0_r; split; [reflexivity|]; cbn [frame duration_per_frame current_frame_start];
      split; [reflexivity|]; split; [reflexivity|]; lia.
  - cbn [clocks_ok frame duration_per_frame] in Hok; destruct Hok as [[Ht Hs] Hok].
    assert (H3 : st + dpf <= now3).
    { unfold sleep_request in Hs; cbn [current_frame_start duration_per_frame] in Hs.
      destruct (now1 <=? st + dpf) eqn:E; [apply Z.leb_le in E|apply Z.leb_gt in E]; lia. }
    cbn [List.length] in Hmax |- *.
    replace (Z.of_nat fn + 1) with (Z.of_nat (S fn)) in Hok by lia.
    destruct (IH (S fn) now3 dpf now3 Hok ltac:(lia)) as (gl & Hrun & Hf & Hd & Hst).
    exists gl; cbn [GameLoop_run]; unfold GameLoop_next; cbn [frame duration_per_frame].
    rewrite (proj2 (Z.ltb_ge u64_max (Z.of_nat fn + 1)) ltac:(lia)).
    replace (Z.of_nat fn + 1) with (Z.of_nat (S fn)) by lia.
    rewrite Hrun; cbn [seq map]; split; [reflexivity|].
    rewrite Hf, Hd; split; [f_equal; lia|]; split; [reflexivity|]; lia.
Qed.

(** ** Extra properties of [main], [get_pressed_keys], [GameLoop] and [Player] *)

(** X7.  [get_pressed_keys] either fails or returns, for every key code, the
    last key event of that code read in the batch (the [HashMap] insert
    replaces the earlier one; non-key events are skipped); it fails with an
    [Err] exactly when [poll] or [read] reports an I/O error. *)
Theorem get_pressed_keys_last_event :
  (forall inp, ~ In IoError inp ->
     exists m, get_pressed_keys inp = Some m /\
       forall k, km_get m k = last_key_event inp k) /\
  (forall inp, In IoError inp -> get_pressed_keys inp = None).
Proof.
  split; [exact get_pressed_keys_lookup|].
  intros inp Hin; exact (get_pressed_keys_from_err inp [] Hin).
Qed.

(** X8.  An I/O error while [main] reads a frame's keys drops every key of
    that frame ([unwrap_or(HashMap::new())]): the frame runs as one with no
    key pressed, and in particular never quits. *)
Theorem main_frame_io_error : forall {Rng} rb (gr : f64 -> f64 -> Rng -> f64 * Rng) inp s r,
  In IoError inp ->
  main_frame rb gr inp s r = main_frame rb gr [] s r /\
  forall s', main_frame rb gr inp s r <> Quit s'.
Proof.
  intros Rng rb gr inp s r Hin.
  assert (E : main_frame rb gr inp s r = main_frame rb gr [] s r).
  { assert (Hn : get_pressed_keys inp = None) by exact (get_pressed_keys_from_err inp [] Hin).
    unfold main_frame; rewrite Hn; reflexivity. }
  split; [exact E|]; intros s' Hq; rewrite E in Hq.
  change (main_frame rb gr [] s r) with
    (match Game.update rb gr [] (from_millis 100) s r with
     | None => Panic
     | Some (s1, r1) => match display s1 with None => Panic | Some sc => Running s1 r1 sc end
     end) in Hq.
  destruct (Game.update rb gr [] (from_millis 100) s r) as [[s1 r1]|]; [|discriminate].
  destruct (display s1); discriminate.
Qed.

(** X9.  A frame of [main] stops the game, leaving the state untouched,
    exactly when its key batch has no I/O error and the last ['c'] key event
    of the batch carries the CONTROL modifier. *)
Theorem main_frame_quit_iff : forall {Rng} rb (gr : f64 -> f64 -> Rng -> f64 * Rng) inp s r s',
  main_frame rb gr inp s r = Quit s' <->
  s' = s /\ ~ In IoError inp /\
  exists e, last_key_event inp (Char "c"%char) = Some e /\
            contains_modifier (modifiers e) CONTROL = true.
Proof.
  intros Rng rb gr inp s r s'; destruct (In_dec_IoError inp) as [Hin|Hio].
  - split; [intros Hq; exfalso; exact (proj2 (main_frame_io_error rb gr inp s r Hin) s' Hq)|].
    intros (_ & Hio & _); exfalso; exact (Hio Hin).
  - destruct (get_pressed_keys_lookup inp Hio) as (m & Hm & Hk).
    unfold main_frame; rewrite Hm, Hk.
    destruct (last_key_event inp (Char "c"%char)) as [e|] eqn:Ec.
    + destruct (contains_modifier (modifiers e) CONTROL) eqn:Ecm.
      * split; [intros Hq; injection Hq as <-; split; [reflexivity|]; split; [exact Hio|];
                exists e; split; [reflexivity|exact Ecm]|].
        intros (-> & _ & _); reflexivity.
      * split; [|intros (_ & _ & e' & He' & Hc); injection He' as <-; rewrite Ecm in Hc;
                 discriminate].
        intros Hq; destruct (Game.update _ _ _ _ s r) as [[s1 r1]|]; [|discriminate].
        destruct (display s1); discriminate.
    + split; [|intros (_ & _ & e' & He' & _); discriminate].
      intros Hq; destruct (Game.update _ _ _ _ s r) as [[s1 r1]|]; [|discriminate].
      destruct (display s1); discriminate.
Qed.

(** X10.  Every state [main] runs through is a reachable game state: after
    any sequence of frames from [GameState::new] on a field at most [2^53]
    wide, the state it is in (still running, or stopped by Ctrl+C) is one
    that [GameState::new] and [update] with a positive duration produce, and
    the last screen drawn is the [display] of that state. *)
Theorem main_states_reachable :
  forall {Rng} rb (gr : f64 -> f64 -> Rng -> f64 * Rng) w h up down frames r0,
  0 <= w <= 2 ^ 53 ->
  (forall s r scr, main_run rb gr w h up down frames r0 = Running s r scr ->
     reachable rb gr (s, r) /\ (frames <> [] -> display s = Some scr)) /\
  (forall s, main_run rb gr w h up down frames r0 = Quit s -> exists r, reachable rb gr (s, r)).
Proof.
  intros Rng rb gr w h up down frames r0 Hw.
  pose proof (reachable_new rb gr w h up down r0 Hw) as Hr.
  unfold main_run; destruct (Game.new rb gr w h up down r0) as [s0 r1] eqn:E.
  destruct (main_loop_reachable rb gr frames s0 r1 [] Hr) as [HR HQ].
  split; [|exact HQ].
  intros s r scr H; split; [exact (proj1 (HR s r scr H))|].
  intros Hne; exact (main_loop_display rb gr frames s0 r1 [] s r scr Hne H).
Qed.

(** X11.  In every reachable game state (fields at most [2^53] wide, as
    [reachable] requires) paddle1 stands on column [x = 0]
    and paddle2 on column [x = width], neither moving horizontally: the
    [vx * dt] terms of [Player::update_position] never move them off their
    columns (for a [gen_range] that keeps its contract). *)
Theorem paddles_on_columns : forall {Rng} rb (gr : f64 -> f64 -> Rng -> f64 * Rng),
  gen_range_contract gr -> gen_range_valid gr ->
  forall s r, reachable rb gr (s, r) ->
  x (position (player1 s)) = zero /\ x (position (player2 s)) = of_Z (width s) /\
  vx (velocity (player1 s)) = zero /\ vx (velocity (player2 s)) = zero.
Proof.
  intros Rng rb gr Hgr Hgv s r Hr.
  destruct (reachable_field_inv rb gr Hgr Hgv (s, r) Hr)
    as (_ & H1 & H2 & H3 & H4 & _).
  repeat split; assumption.
Qed.

(** X12.  A frame of [main] whose key batch (without I/O error) holds an
    ['r'] key event and no ['c'] key event, on a field as in X6 where
    paddle1 reaches more than [(height + 1) / 2] rows down, panics: the
    reset succeeds and the following [display] underflows. *)
Theorem main_frame_reset_panics : forall {Rng} rb (gr : f64 -> f64 -> Rng -> f64 * Rng) inp s r,
  ~ In IoError inp ->
  last_key_event inp (Char "r"%char) <> None ->
  last_key_event inp (Char "c"%char) = None ->
  0 <= width s <= 2 ^ 53 -> 0 <= height s <= 2 ^ 53 -> (1 <= width s \/ 1 <= height s) ->
  (height s + 1) / 2 < extend_down (player1 s) ->
  main_frame rb gr inp s r = Panic.
Proof.
  intros Rng rb gr inp s r Hio Hr Hc Hw Hh H1 Hd.
  destruct (get_pressed_keys_lookup inp Hio) as (m & Hm & Hk).
  unfold main_frame; rewrite Hm, Hk, Hc.
  assert (Hck : contains_key (km_keys m) (Char "r"%char) = true).
  { rewrite contains_km_get, Hk; destruct (last_key_event inp (Char "r"%char));
      [reflexivity|exfalso; apply Hr; reflexivity]. }
  assert (Hu : Game.update rb gr (km_keys m) (from_millis 100) s r =
               Some (Game.reset_ball_and_players rb gr s r))
    by (unfold Game.update; rewrite Hck; reflexivity).
  rewrite Hu.
  pose proof (display_reset_None rb gr s r Hw Hh H1 Hd) as HD.
  destruct (Game.reset_ball_and_players rb gr s r) as [s1 r1]; cbn [fst] in HD.
  rewrite HD; reflexivity.
Qed.

(** X13.  Driving a fresh [GameLoop] (created at [t0]) through [n] calls of
    [next] on a monotonic clock, with [n] at most [u64::MAX], yields the
    frame numbers [0, 1, ..., n - 1] in order, and the frame start it then
    holds is at least [t0 + n * duration_per_frame]: each call returns no
    earlier than one frame duration after the previous frame started. *)
Theorem GameLoop_frames_paced : forall dpf t0 clocks,
  clocks_ok (GameLoop_new dpf t0) t0 clocks ->
  Z.of_nat (List.length clocks) <= u64_max ->
  exists gl, GameLoop_run (GameLoop_new dpf t0) clocks =
               Some (map Z.of_nat (seq 0 (List.length clocks)), gl) /\
             frame gl = Z.of_nat (List.length clocks) /\
             t0 + Z.of_nat (List.length clocks) * dpf <= current_frame_start gl.
Proof.
  intros dpf t0 clocks Hok Hmax.
  destruct (GameLoop_run_gen clocks 0 t0 dpf t0 Hok Hmax) as (gl & Hrun & Hf & _ & Hst).
  exists gl; split; [exact Hrun|]; split; [exact Hf|exact Hst].
Qed.

(** X14.  [Player::update_position] with neither of the paddle's keys
    pressed leaves a paddle whose [y] already lies within its clamp bounds
    [[0 + extend_down, max_height - extend_up]] exactly as it was. *)
Theorem idle_paddle_stays : forall max_height keys dt p,
  contains_key keys (key_up p) = false -> contains_key keys (key_down p) = false ->
  le (add zero (of_Z (extend_down p))) (y (position p)) = true ->
  le (y (position p)) (sub max_height (of_Z (extend_up p))) = true ->
  Player.update_position max_height keys dt p = p.
Proof.
  intros H keys dt p Hu Hd Hlo Hhi; unfold Player.update_position; rewrite Hu, Hd.
  destruct (le_not_nan _ _ Hhi) as [Hy Hh]; destruct (le_not_nan _ _ Hlo) as [Hl _].
  unfold min, max; rewrite Hy, Hh, (le_lt_false _ _ Hhi), Hy, Hl, (le_lt_false _ _ Hlo).
  destruct p as [eu ed ku kd [px py] v]; reflexivity.
Qed.

(** ** Witnesses of the extra properties *)

Definition key_ev (c : ascii) (mods : Z) : Input := Ready (Key (KeyEvent_mk (Char c) mods)).

Lemma get_pressed_keys_last_event_witness :
  let inp := [key_ev "w" 0; Ready OtherEvent; key_ev "w" 1] in
  (exists m, get_pressed_keys inp = Some m /\
     forall k, km_get m k = last_key_event inp k) /\
  get_pressed_keys (inp ++ [IoError]) = None.
Proof.
  intros inp; split.
  - apply (proj1 get_pressed_keys_last_event); intros [Hc|[Hc|[Hc|[]]]]; discriminate Hc.
  - apply (proj2 get_pressed_keys_last_event); simpl; tauto.
Defined.

Lemma main_frame_io_error_witness :
  main_frame test_random_bool test_gen_range [key_ev "c" 2; IoError] (test_game 60 18 1 1) O =
  main_frame test_random_bool test_gen_range [] (test_game 60 18 1 1) O.
Proof. apply (main_frame_io_error test_random_bool test_gen_range); simpl; tauto. Defined.

Lemma main_frame_quit_iff_witness :
  main_frame test_random_bool test_gen_range [key_ev "c" 2; key_ev "c" 0]
    (test_game 60 18 1 1) O <> Quit (test_game 60 18 1 1).
Proof.
  intros Hq; apply (main_frame_quit_iff test_random_bool test_gen_range) in Hq.
  destruct Hq as (_ & _ & e & He & Hc); vm_compute in He; injection He as <-.
  vm_compute in Hc; discriminate Hc.
Defined.

Lemma main_states_reachable_witness :
  let o := main_run test_random_bool test_gen_range 6 4 1 1 [[key_ev "w" 0]; []] O in
  exists s r scr, o = Running s r scr /\ reachable test_random_bool test_gen_range (s, r) /\
    display s = Some scr.
Proof.
  intros o; destruct o as [s| |s r scr] eqn:Eo; [vm_compute in Eo; discriminate Eo
    |vm_compute in Eo; discriminate Eo|].
  destruct (main_states_reachable test_random_bool test_gen_range 6 4 1 1
              [[key_ev "w" 0]; []] O ltac:(lia)) as [HR _].
  destruct (HR s r scr Eo) as [Hr Hd].
  exists s, r, scr; split; [reflexivity|]; split; [exact Hr|apply Hd; discriminate].
Defined.

Lemma paddles_on_columns_witness :
  let sr0 := Game.new test_random_bool test_gen_range 60 18 1 1 O in
  let sr1 := match Game.update test_random_bool test_gen_range [Char "w"%char; Down] tick
                     (fst sr0) (snd sr0) with Some sr => sr | None => sr0 end in
  Game.update test_random_bool test_gen_range [Char "w"%char; Down] tick (fst sr0) (snd sr0)
    = Some sr1 /\
  lt (y (position (player1 (fst sr0)))) (y (position (player1 (fst sr1)))) = true /\
  lt (y (position (player2 (fst sr1)))) (y (position (player2 (fst sr0)))) = true /\
  x (position (player1 (fst sr1))) = zero /\
  x (position (player2 (fst sr1))) = of_Z (width (fst sr1)).
Proof.
  intros sr0 sr1.
  assert (H1 : Game.update test_random_bool test_gen_range [Char "w"%char; Down] tick
                 (fst sr0) (snd sr0) = Some sr1) by (vm_compute; reflexivity).
  assert (Hc : gen_range_contract test_gen_range).
  { intros low high r Hlt; split; [exact (le_refl_of_lt _ _ Hlt)|exact Hlt]. }
  assert (Hv : gen_range_valid test_gen_range).
  { intros low high r Hl _ _; exact Hl. }
  assert (R1 : reachable test_random_bool test_gen_range (fst sr1, snd sr1)).
  { apply (reachable_update _ _ [Char "w"%char; Down] tick (fst sr0) (snd sr0)).
    - rewrite <- surjective_pairing; apply reachable_new; lia.
    - split; vm_compute; reflexivity.
    - rewrite <- surjective_pairing; exact H1. }
  destruct (paddles_on_columns test_random_bool test_gen_range Hc Hv (fst sr1) (snd sr1) R1)
    as (P1 & P2 & _ & _).
  split; [exact H1|]; split; [vm_compute; reflexivity|]; split; [vm_compute; reflexivity|].
  split; [exact P1|exact P2].
Defined.

Lemma main_frame_reset_panics_witness :
  main_frame test_random_bool test_gen_range [key_ev "r" 0] (test_game 6 2 1 2) O = Panic.
Proof.
  apply (main_frame_reset_panics test_random_bool test_gen_range);
    [intros [Hc|[]]; discriminate Hc|zcomp|reflexivity|vm_compute|vm_compute|vm_compute|vm_compute].
  - split; discriminate.
  - split; discriminate.
  - left; discriminate.
  - reflexivity.
Defined.

Lemma GameLoop_frames_paced_witness :
  exists gl, GameLoop_run (GameLoop_new 100 0) [(10, 20, 100); (150, 150, 200)] =
               Some ([0; 1], gl) /\ 200 <= current_frame_start gl.
Proof.
  destruct (GameLoop_frames_paced 100 0 [(10, 20, 100); (150, 150, 200)]) as (gl & H1 & _ & H3).
  - vm_compute; repeat split; discriminate.
  - vm_compute; discriminate.
  - exists gl; split; [exact H1|exact H3].
Defined.

Lemma idle_paddle_stays_witness :
  Player.update_position (of_Z 18) [Char "r"%char] tick (player1 (test_game 60 18 1 1)) =
  player1 (test_game 60 18 1 1).
Proof. apply idle_paddle_stays; vm_compute; reflexivity. Defined.
